(** * HeimdaLLM: the SQL alias collector and the validator composition

    A shallow embedding of [heimdallm/bifrosts/sql/visitors/aliases.py]
    (the classes [_QueryAliases] and [AliasCollector]) and the properties of
    the alias-resolution pass.

    Python objects that the collector mutates in place live in an explicit
    store: the [FqColumn] instances in [heap] (a set holds references to
    them), the [_QueryAliases] instances in the registry [_query_aliases]
    (the reference to one is its scope id).  Exceptions are results of a
    state-and-error monad; the state survives a raise, as in Python. *)

From stdpp Require Import gmap strings list fin_maps.
From Stdlib Require Import ZArith.

Local Open Scope Z_scope.
Local Open Scope string_scope.
Local Open Scope list_scope.

(** ** Syntax trees (lark [Tree] and [Token]) *)

Abbreviation UUID := N.

(** A child of a node is a token or a subtree; a subtree carries its grammar
    tag [data], the scope/identity [meta.id] and its ordered children. *)
#[warnings="-register-all"]
Inductive Tree :=
| Token (value : string)
| Node (data : string) (id : UUID) (children : list Tree).

(** [node.meta.parent]: the chain of ancestors of a node, nearest first.
    [Root] is Python's [None]; [Under d i p] is a parent [p'] with
    [p'.data = d], [p'.meta.id = i] and [p'.meta.parent = p]. *)
Inductive Up :=
| Root
| Under (data : string) (id : UUID) (parent : Up).

(** The node a visitor method receives. *)
Record VNode := {
  data : string;
  meta_id : UUID;
  meta_parent : Up;
  children : list Tree
}.

(** [isinstance(t, Tree)]: the child is a subtree, not a token. *)
Definition is_tree (t : Tree) : bool :=
  match t with
  | Token _ => false
  | Node _ _ _ => true
  end.

(** [[c for c in reversed(subtree.children) if isinstance(c, Tree)]] *)
Definition tree_children_reversed (t : Tree) : list Tree :=
  match t with
  | Token _ => []
  | Node _ _ cs => List.filter is_tree (List.rev cs)
  end.

(** The loop of lark's [Tree.iter_subtrees]:
    [for subtree in queue: queue += <the children that are trees, reversed>].
    The result lists the subtrees in the order the loop meets them; [fuel]
    bounds the number of iterations.  (lark also skips a child object it has
    met already; the subtrees of a parse tree are distinct objects.) *)
Fixpoint walk (fuel : nat) (queue : list Tree) : list Tree :=
  match fuel, queue with
  | S fuel', subtree :: queue' =>
      subtree :: walk fuel' (queue' ++ tree_children_reversed subtree)
  | _, _ => []
  end.

(** The number of subtrees of a tree: the iterations the loop makes. *)
Fixpoint count_subtrees (t : Tree) : nat :=
  match t with
  | Token _ => 0%nat
  | Node _ _ cs =>
      S ((fix sum (cs : list Tree) : nat :=
            match cs with
            | [] => 0%nat
            | c :: cs' => (count_subtrees c + sum cs')%nat
            end) cs)
  end.

(** [Tree.iter_subtrees]: the queue of the loop, reversed; so the deepest
    subtrees come first and the tree itself last. *)
Definition iter_subtrees (t : Tree) : list Tree :=
  List.rev (walk (count_subtrees t) [t]).

Definition has_data (tag : string) (t : Tree) : bool :=
  match t with
  | Token _ => false
  | Node d _ _ => String.eqb d tag
  end.

(** [Tree.find_data tag] of lark: the subtrees (the tree itself included)
    whose [data] is [tag], in the order of [iter_subtrees].  Only a [Tree]
    has the method; the caller decides what a [Token] does. *)
Definition find_data (tag : string) (t : Tree) : list Tree :=
  List.filter (has_data tag) (iter_subtrees t).

(** The queue of [iter_subtrees] level by level: [levels t] lists the
    subtrees of each depth, in the order of the queue.  The levels below a
    node are those of its children put side by side ([zip_app]), the last
    child first. *)
Fixpoint zip_app {A} (a b : list (list A)) : list (list A) :=
  match a, b with
  | [], _ => b
  | _, [] => a
  | x :: a', y :: b' => (x ++ y) :: zip_app a' b'
  end.

Fixpoint levels (t : Tree) : list (list Tree) :=
  match t with
  | Token _ => []
  | Node _ _ cs =>
      [t] :: (fix below (cs : list Tree) : list (list Tree) :=
                match cs with
                | [] => []
                | c :: cs' => zip_app (below cs') (levels c)
                end) cs
  end.

Definition forest_levels (q : list Tree) : list (list Tree) :=
  foldr (λ t acc, zip_app (levels t) acc) [] q.

Definition count_forest (q : list Tree) : nat :=
  foldr (λ t acc, (count_subtrees t + acc)%nat) 0%nat q.

(** ** Data model *)

(** Modelled from the spec: [FqColumn] is imported from [..common], which is
    not among the sources; it is the record [{table, column}] whose identity
    ([__eq__]) is by value. *)
Record FqColumn := { table : string; column : string }.

#[global] Instance FqColumn_eq_dec : EqDecision FqColumn.
Proof. solve_decision. Defined.

(** A Python [set] keeps, for every member, the hash computed when the member
    was added together with the reference to the member. *)
Record SetEntry := { entry_hash : Z; entry_key : nat }.

#[global] Instance SetEntry_eq_dec : EqDecision SetEntry.
Proof. solve_decision. Defined.

(** A value of [_aliased_columns]: [None] or a set of [FqColumn]. *)
Inductive ColumnsValue :=
| PyNone
| PySet (entries : list SetEntry).

Record _QueryAliases := {
  _aliased_tables : gmap string string;
  _aliased_columns : gmap string ColumnsValue;
  _selected_table : option string;
  _subquery_aliases : gmap string UUID
}.

(** [_QueryAliases.__init__] *)
Definition new_QueryAliases : _QueryAliases :=
  {| _aliased_tables := ∅; _aliased_columns := ∅;
     _selected_table := None; _subquery_aliases := ∅ |}.

(** The collector object.  [self_selected_table] is the attribute
    [self._selected_table] that [selected_table] sets on the collector
    itself ([None]: not set yet). *)
Record AliasCollector := {
  _query_aliases : gmap UUID _QueryAliases;
  _reserved_keywords : gset string;
  self_selected_table : option string
}.

(** [AliasCollector.__init__] *)
Definition new_AliasCollector (reserved_keywords : gset string) : AliasCollector :=
  {| _query_aliases := ∅; _reserved_keywords := reserved_keywords;
     self_selected_table := None |}.

Record World := {
  heap : list FqColumn;
  self : AliasCollector
}.

Definition new_World (reserved_keywords : gset string) : World :=
  {| heap := []; self := new_AliasCollector reserved_keywords |}.

(** ** Exceptions and the state-and-error monad *)

Inductive exn :=
| RuntimeError (msg : string)
| ValueError
| AttributeError
| IdentifierError (msg : string).

Inductive result (A : Type) :=
| Ok (a : A)
| Raise (e : exn).
Arguments Ok {A} a.
Arguments Raise {A} e.

Definition M (A : Type) : Type := World → World * result A.

Definition ret {A} (a : A) : M A := λ w, (w, Ok a).
Definition raise {A} (e : exn) : M A := λ w, (w, Raise e).
Definition bind {A B} (m : M A) (k : A → M B) : M B :=
  λ w, match m w with
       | (w', Ok a) => k a w'
       | (w', Raise e) => (w', Raise e)
       end.
Definition lift {A} (r : result A) : M A := λ w, (w, r).
Definition get_world : M World := λ w, (w, Ok w).
Definition put_self (c : AliasCollector) : M unit :=
  λ w, ({| heap := heap w; self := c |}, Ok tt).
Definition put_heap (h : list FqColumn) : M unit :=
  λ w, ({| heap := h; self := self w |}, Ok tt).

Declare Scope py_scope.
Delimit Scope py_scope with py.
Notation "x <- m ;; k" := (bind m (λ x, k))
  (at level 100, m at next level, right associativity) : py_scope.
Notation "m ;;; k" := (bind m (λ _, k))
  (at level 100, right associativity) : py_scope.
Local Open Scope py_scope.

(** Tuple unpacking of [node.children]. *)
Definition unpack3 (cs : list Tree) : M (Tree * Tree * Tree) :=
  match cs with
  | [a; b; c] => ret (a, b, c)
  | _ => raise ValueError
  end.

Definition unpack2 (cs : list Tree) : M (Tree * Tree) :=
  match cs with
  | [a; b] => ret (a, b)
  | _ => raise ValueError
  end.

(** ** Registry and scope objects *)

Definition registry (w : World) : gmap UUID _QueryAliases :=
  _query_aliases (self w).

Definition set_registry (r : gmap UUID _QueryAliases) (w : World) : World :=
  {| heap := heap w;
     self := {| _query_aliases := r;
                _reserved_keywords := _reserved_keywords (self w);
                self_selected_table := self_selected_table (self w) |} |}.

(** The [_QueryAliases] object a reference (scope id) points to. *)
Definition scope (w : World) (u : UUID) : _QueryAliases :=
  default new_QueryAliases (registry w !! u).

(** [self._query_aliases.setdefault(u, _QueryAliases())] *)
Definition setdefault_scope (u : UUID) : M UUID :=
  λ w, match registry w !! u with
       | Some _ => (w, Ok u)
       | None => (set_registry (<[u := new_QueryAliases]> (registry w)) w, Ok u)
       end.

(** Mutation of the object behind a reference. *)
Definition update_scope (u : UUID) (f : _QueryAliases → _QueryAliases) : M unit :=
  λ w, (set_registry (alter f u (registry w)) w, Ok tt).

Definition set_aliased_table (alias table_name : string) (q : _QueryAliases) : _QueryAliases :=
  {| _aliased_tables := <[alias := table_name]> (_aliased_tables q);
     _aliased_columns := _aliased_columns q;
     _selected_table := _selected_table q;
     _subquery_aliases := _subquery_aliases q |}.

Definition set_aliased_columns (alias : string) (v : ColumnsValue) (q : _QueryAliases) : _QueryAliases :=
  {| _aliased_tables := _aliased_tables q;
     _aliased_columns := <[alias := v]> (_aliased_columns q);
     _selected_table := _selected_table q;
     _subquery_aliases := _subquery_aliases q |}.

Definition set_subquery_alias (alias : string) (u : UUID) (q : _QueryAliases) : _QueryAliases :=
  {| _aliased_tables := _aliased_tables q;
     _aliased_columns := _aliased_columns q;
     _selected_table := _selected_table q;
     _subquery_aliases := <[alias := u]> (_subquery_aliases q) |}.

(** ** The collector *)

(** [AliasCollector._alias_scope]: the loop over [p = p.meta.parent]. *)
Fixpoint find_wrapping_query (p : Up) : M UUID :=
  match p with
  | Root => raise (RuntimeError "could not find wrapping query for node")
  | Under d i p' =>
      if String.eqb d "full_query" then setdefault_scope i
      else find_wrapping_query p'
  end.

Definition _alias_scope (node : VNode) : M UUID :=
  find_wrapping_query (meta_parent node).

(** [AliasCollector._resolve_table] *)
Definition _resolve_table (node : VNode) (table : string) : M string :=
  aliases <- _alias_scope node ;;
  w <- get_world ;;
  ret (default table (_aliased_tables (scope w aliases) !! table)).

(** The backfill loops of [aliased_table]. *)
Definition backfill_column (alias table_name : string) (c : FqColumn) : FqColumn :=
  if String.eqb (table c) alias
  then {| table := table_name; column := column c |}
  else c.

Definition backfill_set (alias table_name : string)
    (h : list FqColumn) (fq_columns : list SetEntry) : list FqColumn :=
  foldl (λ h e, alter (backfill_column alias table_name) (entry_key e) h) h fq_columns.

(** Truth value of [fq_columns]: [None] and the empty set are false. *)
Definition truthy (v : ColumnsValue) : bool :=
  match v with
  | PyNone => false
  | PySet [] => false
  | PySet (_ :: _) => true
  end.

Definition entries_of (v : ColumnsValue) : list SetEntry :=
  match v with
  | PyNone => []
  | PySet s => s
  end.

Definition backfill (alias table_name : string)
    (values : list ColumnsValue) (h : list FqColumn) : list FqColumn :=
  foldl (λ h fq_columns,
           if truthy fq_columns
           then backfill_set alias table_name h (entries_of fq_columns)
           else h) h values.

Section Collector.

(** [get_identifier] and [is_count_function] come from [..utils.identifier],
    which is not among the sources: they are parameters of the collector.
    [get_identifier] may raise. *)
Variable get_identifier : Tree → gset string → result string.
Variable is_count_function : Tree → bool.

(** Modelled from the spec: [FqColumn.__hash__] is in [..common]; any
    function of the value of the column. *)
Variable fq_hash : FqColumn → Z.

Definition identifier (t : Tree) : M string :=
  w <- get_world ;;
  lift (get_identifier t (_reserved_keywords (self w))).

(** [selected_table] *)
Definition selected_table (node : VNode) : M unit :=
  name <- identifier (Node (data node) (meta_id node) (children node)) ;;
  w <- get_world ;;
  put_self {| _query_aliases := _query_aliases (self w);
              _reserved_keywords := _reserved_keywords (self w);
              self_selected_table := Some name |}.

(** [full_query] *)
Definition full_query (node : VNode) : M unit :=
  setdefault_scope (meta_id node) ;;; ret tt.

(** [aliased_table] *)
Definition aliased_table (node : VNode) : M unit :=
  cs <- unpack3 (children node) ;;
  let '(table_node, _, alias_node) := cs in
  table_name <- identifier table_node ;;
  alias <- identifier alias_node ;;
  aliases <- _alias_scope node ;;
  update_scope aliases (set_aliased_table alias table_name) ;;;
  w <- get_world ;;
  put_heap (backfill alias table_name
              (map_to_list (_aliased_columns (scope w aliases))).*2 (heap w)).

(** [derived_table] *)
Definition derived_table (node : VNode) : M unit :=
  cs <- unpack3 (children node) ;;
  let '(subquery, _, alias_node) := cs in
  alias_name <- identifier alias_node ;;
  aliases <- _alias_scope node ;;
  match subquery with
  | Node _ i _ => update_scope aliases (set_subquery_alias alias_name i)
  | Token _ => raise AttributeError
  end.

(** [aliases._aliased_columns[alias_name]] on the [defaultdict(set)]: a
    missing key is first bound to a new empty set. *)
Definition dd_getitem (aliases : UUID) (alias_name : string) : M ColumnsValue :=
  w <- get_world ;;
  match _aliased_columns (scope w aliases) !! alias_name with
  | Some v => ret v
  | None =>
      update_scope aliases (set_aliased_columns alias_name (PySet [])) ;;;
      ret (PySet [])
  end.

(** [set.add]: the member is found when an entry has the same stored hash
    and its object equals the new one; otherwise a new entry is made. *)
Definition set_contains (h : list FqColumn) (s : list SetEntry) (c : FqColumn) : bool :=
  existsb (λ e, Z.eqb (entry_hash e) (fq_hash c)
                && bool_decide (h !! entry_key e = Some c)) s.

Definition set_add (h : list FqColumn) (s : list SetEntry) (a : nat) (c : FqColumn) : list SetEntry :=
  if set_contains h s c then s
  else s ++ [{| entry_hash := fq_hash c; entry_key := a |}].

(** [composite_columns.add(FqColumn(table=..., column=...))] *)
Definition add_column (aliases : UUID) (alias_name : string)
    (composite_columns : ColumnsValue) (table_name column_name : string) : M unit :=
  match composite_columns with
  | PyNone => raise AttributeError
  | PySet _ =>
      w <- get_world ;;
      let c := {| table := table_name; column := column_name |} in
      let a := length (heap w) in
      put_heap (heap w ++ [c]) ;;;
      update_scope aliases (λ q,
        match _aliased_columns q !! alias_name with
        | Some (PySet s) =>
            set_aliased_columns alias_name (PySet (set_add (heap w) s a c)) q
        | _ => q
        end)
  end.

(** One iteration of the loop over [value_node.find_data("fq_column")]. *)
Definition record_fq_column (node : VNode) (aliases : UUID) (alias_name : string)
    (fq_column_node : Tree) : M unit :=
  cs <- unpack2 (match fq_column_node with Node _ _ cs => cs | Token _ => [] end) ;;
  let '(table_node, column_node) := cs in
  table_name <- identifier table_node ;;
  column_name <- identifier column_node ;;
  table_name <- _resolve_table node table_name ;;
  composite_columns <- dd_getitem aliases alias_name ;;
  add_column aliases alias_name composite_columns table_name column_name.

Fixpoint for_each {A} (body : A → M unit) (l : list A) : M unit :=
  match l with
  | [] => ret tt
  | x :: l' => body x ;;; for_each body l'
  end.

(** [value_node.find_data("fq_column")]: the expression of an aliased column
    is a subtree or a bare token, and a lark [Token] (a [str]) has no
    [find_data]: the attribute lookup raises. *)
Definition find_fq_columns (value_node : Tree) : M (list Tree) :=
  match value_node with
  | Node _ _ _ => ret (find_data "fq_column" value_node)
  | Token _ => raise AttributeError
  end.

(** [aliased_column] *)
Definition aliased_column (node : VNode) : M unit :=
  aliases <- _alias_scope node ;;
  cs <- unpack3 (children node) ;;
  let '(value_node, _, alias_node) := cs in
  alias_name <- identifier alias_node ;;
  if is_count_function value_node then
    update_scope aliases (set_aliased_columns alias_name PyNone)
  else
    fq_column_nodes <- find_fq_columns value_node ;;
    for_each (record_fq_column node aliases alias_name) fq_column_nodes ;;;
    match fq_column_nodes with
    | [] => update_scope aliases (set_aliased_columns alias_name PyNone)
    | _ :: _ => ret tt
    end.

(** lark's [Visitor] calls the method named after [node.data], when the
    collector has one. *)
Definition visit_node (node : VNode) : M unit :=
  if String.eqb (data node) "selected_table" then selected_table node
  else if String.eqb (data node) "full_query" then full_query node
  else if String.eqb (data node) "aliased_table" then aliased_table node
  else if String.eqb (data node) "derived_table" then derived_table node
  else if String.eqb (data node) "aliased_column" then aliased_column node
  else ret tt.

(** A traversal: the visitor calls in the order the nodes are visited; it
    stops at the first exception. *)
Definition visit_all (nodes : list VNode) : M unit := for_each visit_node nodes.

End Collector.

(** ** The order of [iter_subtrees]

    The loop of [iter_subtrees] meets the subtrees level by level, and the
    fuel it is given is enough. *)

Lemma zip_app_nil_r {A} (a : list (list A)) : zip_app a [] = a.
Proof. by destruct a. Qed.

Lemma zip_app_assoc {A} (a b c : list (list A)) :
  zip_app a (zip_app b c) = zip_app (zip_app a b) c.
Proof.
  revert b c. induction a as [|x a IH]; intros [|y b] [|z c]; simpl; try done.
  by rewrite IH, (assoc_L (++)).
Qed.

Lemma forest_levels_app a b :
  forest_levels (a ++ b) = zip_app (forest_levels a) (forest_levels b).
Proof.
  induction a as [|t a IH]; simpl; [done|].
  by rewrite IH, zip_app_assoc.
Qed.

Lemma count_forest_app a b :
  count_forest (a ++ b) = (count_forest a + count_forest b)%nat.
Proof. induction a as [|t a IH]; simpl; [done|]. rewrite IH. lia. Qed.

Lemma levels_Node d i cs :
  levels (Node d i cs)
  = [Node d i cs] :: forest_levels (tree_children_reversed (Node d i cs)).
Proof.
  cbn [levels tree_children_reversed]. f_equal.
  induction cs as [|c cs IH]; [done|].
  rewrite IH. cbn [List.rev]. rewrite List.filter_app, forest_levels_app.
  f_equal. destruct c; [done|].
  cbn [List.filter is_tree forest_levels foldr]. by rewrite zip_app_nil_r.
Qed.

Lemma count_subtrees_Node d i cs :
  count_subtrees (Node d i cs)
  = S (count_forest (tree_children_reversed (Node d i cs))).
Proof.
  cbn [count_subtrees tree_children_reversed]. f_equal.
  induction cs as [|c cs IH]; [done|].
  rewrite IH. cbn [List.rev]. rewrite List.filter_app, count_forest_app.
  destruct c; simpl; lia.
Qed.

Lemma concat_zip_app_swap {A} (n : nat) :
  ∀ (k : list A) K R, (length K + length R ≤ n)%nat →
    List.concat (zip_app (k :: K) R) = k ++ List.concat (zip_app R K).
Proof.
  induction n as [|n IH]; intros k K [|r R] Hn; simpl in Hn; try done; [lia|].
  rewrite (IH r R K) by lia. cbn [zip_app List.concat].
  by rewrite (assoc_L (++)).
Qed.

Lemma tree_count_pos t : is_tree t = true → (0 < count_subtrees t)%nat.
Proof. destruct t; [done|]. simpl. lia. Qed.

(** A queue of trees walked with enough fuel: the levels of the queue, one
    after the other. *)
Lemma walk_levels n :
  ∀ q, Forall (λ t, is_tree t = true) q → (count_forest q ≤ n)%nat →
    walk n q = List.concat (forest_levels q).
Proof.
  induction n as [|n IH]; intros [|t q] Hq Hn; try done.
  - apply Forall_cons in Hq as [Ht _]. apply tree_count_pos in Ht.
    simpl in Hn. lia.
  - apply Forall_cons in Hq as [Ht Hq]. destruct t as [v|d i cs]; [done|].
    cbn [walk]. rewrite IH.
    + rewrite forest_levels_app. cbn [forest_levels foldr].
      rewrite levels_Node.
      by rewrite (concat_zip_app_swap _ _ _ _ (le_n _)).
    + apply Forall_app. split; [done|].
      apply Forall_forall. intros x Hx.
      apply list_elem_of_In, List.filter_In in Hx. tauto.
    + rewrite count_forest_app. cbn [count_forest foldr] in Hn.
      rewrite count_subtrees_Node in Hn. unfold count_forest in *. lia.
Qed.

(** [iter_subtrees] lists the levels of the tree, the last one first, each
    reversed. *)
Lemma iter_subtrees_levels t :
  iter_subtrees t = List.rev (List.concat (levels t)).
Proof.
  unfold iter_subtrees. destruct t as [v|d i cs]; [done|].
  rewrite walk_levels.
  - cbn [forest_levels foldr]. by rewrite zip_app_nil_r.
  - by repeat constructor.
  - simpl. lia.
Qed.

(** More fuel changes nothing: [count_subtrees t] iterations are all the
    loop makes. *)
Lemma walk_enough n t :
  is_tree t = true →
  (count_subtrees t ≤ n)%nat → walk n [t] = walk (count_subtrees t) [t].
Proof.
  intros Ht Hn. destruct t as [v|d i cs]; [done|].
  rewrite (walk_levels n), (walk_levels (count_subtrees _)); [done|..].
  all: try by repeat constructor.
  all: simpl in *; lia.
Qed.

(** On a tree of three levels with a token among the children: the deepest
    subtrees first, each level left to right, the tree itself last. *)
Lemma iter_subtrees_order :
  iter_subtrees
    (Node "a" 0%N
       [Node "b" 0%N [Node "d" 0%N []; Token "x"; Node "e" 0%N []];
        Node "c" 0%N [Node "f" 0%N []]])
  = [Node "d" 0%N []; Node "e" 0%N []; Node "f" 0%N [];
     Node "b" 0%N [Node "d" 0%N []; Token "x"; Node "e" 0%N []];
     Node "c" 0%N [Node "f" 0%N []];
     Node "a" 0%N
       [Node "b" 0%N [Node "d" 0%N []; Token "x"; Node "e" 0%N []];
        Node "c" 0%N [Node "f" 0%N []]]].
Proof. reflexivity. Qed.

(** ** Vocabulary of the statements *)

(** [boundary_above p]: the chain [p] contains a [full_query] node. *)
Inductive boundary_above : Up → Prop :=
| boundary_here d i p : d = "full_query" → boundary_above (Under d i p)
| boundary_further d i p : boundary_above p → boundary_above (Under d i p).

(** [nearest_boundary p u]: the first [full_query] node met from [p] upwards
    has scope id [u]. *)
Inductive nearest_boundary : Up → UUID → Prop :=
| nearest_here i p : nearest_boundary (Under "full_query" i p) i
| nearest_further d i p u :
    d ≠ "full_query" → nearest_boundary p u → nearest_boundary (Under d i p) u.

(** The registry after a get-or-create of the entry [u]. *)
Definition ensure_scope (u : UUID) (w : World) : World :=
  match registry w !! u with
  | Some _ => w
  | None => set_registry (<[u := new_QueryAliases]> (registry w)) w
  end.

(** [recorded q a]: the object at address [a] is a member of one of the sets
    of [q._aliased_columns]. *)
Definition recorded (q : _QueryAliases) (a : nat) : Prop :=
  ∃ k s e, _aliased_columns q !! k = Some (PySet s) ∧ e ∈ s ∧ entry_key e = a.

(** The addresses held by a list of [_aliased_columns] values. *)
Definition addresses (values : list ColumnsValue) : list nat :=
  values ≫= (λ v, entry_key <$> entries_of v).

(** ** Basic facts *)

Lemma string_eqb_true (a b : string) : String.eqb a b = true ↔ a = b.
Proof. apply String.eqb_eq. Qed.

Lemma string_eqb_false (a b : string) : String.eqb a b = false ↔ a ≠ b.
Proof. apply String.eqb_neq. Qed.

Lemma nearest_boundary_above p u : nearest_boundary p u → boundary_above p.
Proof.
  induction 1 as [i p|d i p u Hd _ IH].
  - by apply boundary_here.
  - by apply boundary_further.
Qed.

Lemma boundary_above_nearest p : boundary_above p → ∃ u, nearest_boundary p u.
Proof.
  induction p as [|d i p IH]; intros Hb.
  - inversion Hb.
  - destruct (decide (d = "full_query")) as [->|Hd].
    + exists i. constructor.
    + inversion Hb as [d' i' p' Heq|d' i' p' Hp]; subst; [done|].
      destruct (IH Hp) as [u Hu]. exists u. by constructor.
Qed.

Lemma boundary_above_dec p : boundary_above p ∨ ¬ boundary_above p.
Proof.
  induction p as [|d i p IH].
  - right. inversion 1.
  - destruct (decide (d = "full_query")) as [Hd|Hd].
    + left. by apply boundary_here.
    + destruct IH as [IH|IH].
      * left. by apply boundary_further.
      * right. inversion 1; subst; done.
Qed.

Lemma nearest_boundary_unique p u1 u2 :
  nearest_boundary p u1 → nearest_boundary p u2 → u1 = u2.
Proof.
  intros H1. revert u2.
  induction H1 as [i p|d i p u Hd _ IH]; intros u2 H2; inversion H2; subst;
    try done. by apply IH.
Qed.

Lemma setdefault_scope_ensure u w : setdefault_scope u w = (ensure_scope u w, Ok u).
Proof. unfold setdefault_scope, ensure_scope. by destruct (registry w !! u). Qed.

Lemma find_wrapping_query_nearest p u w :
  nearest_boundary p u → find_wrapping_query p w = (ensure_scope u w, Ok u).
Proof.
  induction 1 as [i p|d i p u Hd _ IH]; simpl.
  - apply setdefault_scope_ensure.
  - apply string_eqb_false in Hd. by rewrite Hd.
Qed.

Lemma find_wrapping_query_none p w :
  ¬ boundary_above p →
  find_wrapping_query p w
  = (w, Raise (RuntimeError "could not find wrapping query for node")).
Proof.
  induction p as [|d i p IH]; intros Hb; simpl; [done|].
  destruct (String.eqb d "full_query") eqn:Hd.
  - apply string_eqb_true in Hd. destruct Hb. by apply boundary_here.
  - apply IH. intros Hp. apply Hb. by apply boundary_further.
Qed.

Lemma registry_set_registry r w : registry (set_registry r w) = r.
Proof. done. Qed.

Lemma heap_set_registry r w : heap (set_registry r w) = heap w.
Proof. done. Qed.

Lemma ensure_scope_heap u w : heap (ensure_scope u w) = heap w.
Proof. unfold ensure_scope. by destruct (registry w !! u). Qed.

Lemma ensure_scope_keywords u w :
  _reserved_keywords (self (ensure_scope u w)) = _reserved_keywords (self w).
Proof. unfold ensure_scope. by destruct (registry w !! u). Qed.

Lemma ensure_scope_selected u w :
  self_selected_table (self (ensure_scope u w)) = self_selected_table (self w).
Proof. unfold ensure_scope. by destruct (registry w !! u). Qed.

Lemma ensure_scope_lookup u w v :
  registry (ensure_scope u w) !! v
  = if decide (u = v)
    then Some (default new_QueryAliases (registry w !! u))
    else registry w !! v.
Proof.
  unfold ensure_scope. destruct (registry w !! u) as [q|] eqn:Hq.
  - case_decide; subst; by rewrite ?Hq.
  - rewrite registry_set_registry, lookup_insert. by case_decide.
Qed.

Lemma ensure_scope_scope u w v : scope (ensure_scope u w) v = scope w v.
Proof.
  unfold scope. rewrite ensure_scope_lookup. case_decide; subst; [|done].
  by destruct (registry w !! v).
Qed.

Lemma ensure_scope_present u w q :
  registry w !! u = Some q → ensure_scope u w = w.
Proof. unfold ensure_scope. by intros ->. Qed.

(** *** C4: the alias-scope lookup *)

(** C4.  [_alias_scope] raises exactly when the parent chain of the node
    holds no [full_query] node, the exception is then the [RuntimeError] (an
    internal error) and nothing has changed; when the chain holds one, the
    result is the scope of the nearest one, whose registry entry is created
    if it is missing and kept as it is otherwise. *)
Theorem alias_scope_lookup (node : VNode) (w : World) :
  ((∃ w' e, _alias_scope node w = (w', Raise e))
     ↔ ¬ boundary_above (meta_parent node))
  ∧ (∀ w' e, _alias_scope node w = (w', Raise e) →
       w' = w ∧ e = RuntimeError "could not find wrapping query for node")
  ∧ (∀ u, nearest_boundary (meta_parent node) u →
       ∃ w', _alias_scope node w = (w', Ok u)
         ∧ heap w' = heap w
         ∧ (∀ v, v ≠ u → registry w' !! v = registry w !! v)
         ∧ (∀ q, registry w !! u = Some q → w' = w)
         ∧ (registry w !! u = None → registry w' !! u = Some new_QueryAliases)).
Proof.
  unfold _alias_scope.
  destruct (boundary_above_dec (meta_parent node)) as [Hb|Hb].
  - destruct (boundary_above_nearest _ Hb) as [u Hu].
    pose proof (find_wrapping_query_nearest _ _ w Hu) as Hrun.
    repeat split.
    + intros (w' & e & He). rewrite Hrun in He. discriminate.
    + intros Hn. by destruct Hn.
    + rewrite Hrun in H. discriminate.
    + rewrite Hrun in H. discriminate.
    + intros u' Hu'. rewrite (nearest_boundary_unique _ _ _ Hu' Hu).
      exists (ensure_scope u w). repeat split.
      * done.
      * apply ensure_scope_heap.
      * intros v Hv. rewrite ensure_scope_lookup. by case_decide; subst.
      * intros q Hq. by apply ensure_scope_present with q.
      * intros Hq. rewrite ensure_scope_lookup. case_decide; [|done].
        by rewrite Hq.
  - pose proof (find_wrapping_query_none _ w Hb) as Hrun.
    repeat split.
    + done.
    + intros _. eauto.
    + rewrite Hrun in H. by inversion H.
    + rewrite Hrun in H. by inversion H.
    + intros u Hu. destruct Hb. by apply nearest_boundary_above with u.
Qed.

(** ** The backfill *)

Lemma backfill_column_idem alias table_name c :
  backfill_column alias table_name (backfill_column alias table_name c)
  = backfill_column alias table_name c.
Proof.
  unfold backfill_column.
  destruct (String.eqb (table c) alias) eqn:Hc; simpl; [|by rewrite Hc].
  destruct (String.eqb table_name alias); done.
Qed.

Lemma backfill_column_hit alias table_name c :
  table c = alias →
  backfill_column alias table_name c = {| table := table_name; column := column c |}.
Proof.
  intros Hc. unfold backfill_column. apply string_eqb_true in Hc. by rewrite Hc.
Qed.

Lemma backfill_column_miss alias table_name c :
  table c ≠ alias → backfill_column alias table_name c = c.
Proof.
  intros Hc. unfold backfill_column. apply string_eqb_false in Hc. by rewrite Hc.
Qed.

Lemma backfill_set_lookup alias table_name s h a :
  backfill_set alias table_name h s !! a
  = if decide (a ∈ entry_key <$> s)
    then backfill_column alias table_name <$> h !! a
    else h !! a.
Proof.
  unfold backfill_set. revert h.
  induction s as [|e s IH]; intros h; [done|].
  rewrite fmap_cons. cbn [foldl]. rewrite IH, list_lookup_alter.
  repeat case_decide; subst; try done.
  all: try (destruct (h !! entry_key e); simpl; try done;
            by rewrite backfill_column_idem).
  all: exfalso; rewrite elem_of_cons in *; intuition congruence.
Qed.

Lemma backfill_set_length alias table_name s h :
  length (backfill_set alias table_name h s) = length h.
Proof.
  unfold backfill_set. revert h.
  induction s as [|e s IH]; intros h; simpl; [done|].
  by rewrite IH, length_alter.
Qed.

Lemma truthy_false_entries v : truthy v = false → entries_of v = [].
Proof. by destruct v as [|[|e s]]. Qed.

Lemma backfill_lookup alias table_name values h a :
  backfill alias table_name values h !! a
  = if decide (a ∈ addresses values)
    then backfill_column alias table_name <$> h !! a
    else h !! a.
Proof.
  unfold backfill, addresses. revert h.
  induction values as [|v values IH]; intros h; [done|].
  rewrite bind_cons. cbn [foldl]. rewrite IH.
  assert ((if truthy v then backfill_set alias table_name h (entries_of v) else h) !! a
          = if decide (a ∈ entry_key <$> entries_of v)
            then backfill_column alias table_name <$> h !! a else h !! a) as ->.
  { destruct (truthy v) eqn:Hv.
    - apply backfill_set_lookup.
    - by rewrite (truthy_false_entries _ Hv). }
  repeat case_decide; try done.
  all: try (destruct (h !! a); simpl; [|done]; by rewrite backfill_column_idem).
  all: exfalso; rewrite elem_of_app in *; tauto.
Qed.

Lemma backfill_length alias table_name values h :
  length (backfill alias table_name values h) = length h.
Proof.
  unfold backfill. revert h.
  induction values as [|v values IH]; intros h; simpl; [done|].
  rewrite IH. destruct (truthy v); [|done]. apply backfill_set_length.
Qed.

Lemma recorded_addresses q a :
  a ∈ addresses (map_to_list (_aliased_columns q)).*2 ↔ recorded q a.
Proof.
  unfold addresses, recorded. rewrite list_elem_of_bind. split.
  - intros (v & Ha & Hv).
    apply list_elem_of_fmap in Hv as ([k v'] & -> & Hkv). simpl in Ha.
    apply elem_of_map_to_list in Hkv.
    apply list_elem_of_fmap in Ha as (e & -> & He).
    destruct v' as [|s]; simpl in He; [by apply elem_of_nil in He|].
    by exists k, s, e.
  - intros (k & s & e & Hk & He & <-).
    exists (PySet s). split.
    + simpl. apply list_elem_of_fmap. by exists e.
    + apply list_elem_of_fmap. exists (k, PySet s). split; [done|].
      by apply elem_of_map_to_list.
Qed.

(** ** Running the visitor methods *)

Lemma bind_ok {A B} (m : M A) (k : A → M B) w w' a :
  m w = (w', Ok a) → bind m k w = k a w'.
Proof. unfold bind. by intros ->. Qed.

Lemma bind_raise {A B} (m : M A) (k : A → M B) w w' e :
  m w = (w', Raise e) → bind m k w = (w', Raise e).
Proof. unfold bind. by intros ->. Qed.

Tactic Notation "run_with" tactic3(tac) := erewrite bind_ok; [|tac].

(** The world [aliased_table] leaves behind when it records
    [alias ↦ table_name] in the scope [u]. *)
Definition after_aliased_table (u : UUID) (alias table_name : string) (w : World) : World :=
  let w1 := ensure_scope u w in
  let w2 := set_registry (alter (set_aliased_table alias table_name) u (registry w1)) w1 in
  {| heap := backfill alias table_name
               (map_to_list (_aliased_columns (scope w2 u))).*2 (heap w2);
     self := self w2 |}.

Lemma scope_alter f u w v :
  scope (set_registry (alter f u (registry w)) w) v
  = if decide (u = v)
    then match registry w !! u with Some q => f q | None => new_QueryAliases end
    else scope w v.
Proof.
  unfold scope. rewrite registry_set_registry, lookup_alter.
  case_decide; subst; [|done]. by destruct (registry w !! v).
Qed.

Lemma ensure_scope_is_Some u w : is_Some (registry (ensure_scope u w) !! u).
Proof. rewrite ensure_scope_lookup. by rewrite decide_True. Qed.

Lemma scope_alter_ensure f u w :
  scope (set_registry (alter f u (registry (ensure_scope u w))) (ensure_scope u w)) u
  = f (scope w u).
Proof.
  rewrite scope_alter, (decide_True (P := u = u)) by done.
  destruct (ensure_scope_is_Some u w) as [q Hq]. rewrite Hq. f_equal.
  rewrite <- (ensure_scope_scope u w u). unfold scope. by rewrite Hq.
Qed.

Lemma scope_after_aliased_table u alias table_name w v :
  scope (after_aliased_table u alias table_name w) v
  = if decide (u = v) then set_aliased_table alias table_name (scope w u)
    else scope w v.
Proof.
  unfold after_aliased_table.
  change (scope ?w v) with (default new_QueryAliases (registry w !! v)) at 1.
  cbn [registry self _query_aliases set_registry].
  rewrite lookup_alter. case_decide; subst.
  - destruct (ensure_scope_is_Some v w) as [q Hq]. rewrite Hq. simpl.
    f_equal. rewrite <- (ensure_scope_scope v w v). unfold scope. by rewrite Hq.
  - fold (scope (ensure_scope u w) v). apply ensure_scope_scope.
Qed.

Lemma heap_after_aliased_table u alias table_name w a :
  heap (after_aliased_table u alias table_name w) !! a
  = if decide (a ∈ addresses (map_to_list (_aliased_columns (scope w u))).*2)
    then backfill_column alias table_name <$> heap w !! a
    else heap w !! a.
Proof.
  unfold after_aliased_table. cbn [heap].
  rewrite backfill_lookup, heap_set_registry, ensure_scope_heap.
  by rewrite scope_alter_ensure.
Qed.

Lemma length_heap_after_aliased_table u alias table_name w :
  length (heap (after_aliased_table u alias table_name w)) = length (heap w).
Proof.
  unfold after_aliased_table. cbn [heap].
  by rewrite backfill_length, heap_set_registry, ensure_scope_heap.
Qed.

Lemma registry_after_aliased_table u alias table_name w :
  is_Some (registry (after_aliased_table u alias table_name w) !! u).
Proof.
  destruct (ensure_scope_is_Some u w) as [q Hq].
  exists (set_aliased_table alias table_name q).
  change (registry (after_aliased_table u alias table_name w))
    with (alter (set_aliased_table alias table_name) u (registry (ensure_scope u w))).
  rewrite lookup_alter, decide_True by done. by rewrite Hq.
Qed.

Lemma keywords_after_aliased_table u alias table_name w :
  _reserved_keywords (self (after_aliased_table u alias table_name w))
  = _reserved_keywords (self w).
Proof. unfold after_aliased_table. simpl. apply ensure_scope_keywords. Qed.

Section Properties.

Context (get_identifier : Tree → gset string → result string).
Context (is_count_function : Tree → bool).
Context (fq_hash : FqColumn → Z).

Lemma identifier_run t w :
  identifier get_identifier t w = (w, get_identifier t (_reserved_keywords (self w))).
Proof. done. Qed.

Lemma identifier_ok t w s :
  get_identifier t (_reserved_keywords (self w)) = Ok s →
  identifier get_identifier t w = (w, Ok s).
Proof. rewrite identifier_run. by intros ->. Qed.

Lemma alias_scope_ok node w u :
  nearest_boundary (meta_parent node) u →
  _alias_scope node w = (ensure_scope u w, Ok u).
Proof. apply find_wrapping_query_nearest. Qed.

Lemma aliased_table_run node w table_node as_node alias_node table_name alias u :
  children node = [table_node; as_node; alias_node] →
  get_identifier table_node (_reserved_keywords (self w)) = Ok table_name →
  get_identifier alias_node (_reserved_keywords (self w)) = Ok alias →
  nearest_boundary (meta_parent node) u →
  aliased_table get_identifier node w
  = (after_aliased_table u alias table_name w, Ok tt).
Proof.
  intros Hcs Ht Ha Hu.
  unfold aliased_table. rewrite Hcs.
  run_with reflexivity. cbn beta iota.
  run_with (by apply identifier_ok).
  run_with (by apply identifier_ok).
  run_with (by apply alias_scope_ok).
  run_with reflexivity. run_with reflexivity. done.
Qed.

(** *** C1: the table alias and its backfill *)

(** C1.  When [aliased_table] processes [<table> AS <alias>] in the scope
    [u], it returns normally; afterwards the scope's [_aliased_tables] maps
    the alias to the table, the sets of [_aliased_columns] hold the same
    references as before, and the object behind every such reference has
    been rewritten in place: its [table] is now the table name when it was
    the alias, and it is unchanged otherwise.  Objects that the scope does
    not hold are unchanged. *)
Theorem aliased_table_backfills
    node w table_node as_node alias_node table_name alias u :
  children node = [table_node; as_node; alias_node] →
  get_identifier table_node (_reserved_keywords (self w)) = Ok table_name →
  get_identifier alias_node (_reserved_keywords (self w)) = Ok alias →
  nearest_boundary (meta_parent node) u →
  ∃ w', aliased_table get_identifier node w = (w', Ok tt)
    ∧ _aliased_tables (scope w' u) !! alias = Some table_name
    ∧ _aliased_columns (scope w' u) = _aliased_columns (scope w u)
    ∧ length (heap w') = length (heap w)
    ∧ ∀ a c, heap w !! a = Some c →
        (recorded (scope w u) a → table c = alias →
           heap w' !! a = Some {| table := table_name; column := column c |})
        ∧ (recorded (scope w u) a → table c ≠ alias → heap w' !! a = Some c)
        ∧ (¬ recorded (scope w u) a → heap w' !! a = Some c).
Proof.
  intros Hcs Ht Ha Hu.
  exists (after_aliased_table u alias table_name w).
  split; [by apply aliased_table_run with table_node as_node alias_node|].
  rewrite scope_after_aliased_table, decide_True by done.
  split; [apply lookup_insert_eq|]. split; [done|].
  split; [apply length_heap_after_aliased_table|].
  intros a c Hc. rewrite heap_after_aliased_table, Hc. simpl.
  repeat split.
  - intros Hrec Htab. apply recorded_addresses in Hrec.
    rewrite decide_True by done. by rewrite backfill_column_hit.
  - intros Hrec Htab. apply recorded_addresses in Hrec.
    rewrite decide_True by done. by rewrite backfill_column_miss.
  - intros Hrec. rewrite decide_False; [done|].
    intros Hin. by apply Hrec, recorded_addresses.
Qed.

End Properties.

(** ** Relations that every step of the collector respects *)

(** [keeps R m w]: running [m] from [w] ends, normally or by an exception, in
    a world related to [w] by [R]. *)
Definition keeps {A} (R : relation World) (m : M A) (w : World) : Prop :=
  R w (m w).1.

Section Keeps.

Context (R : relation World) `{!PreOrder R}.

Lemma keeps_ret {A} (a : A) w : keeps R (ret a) w.
Proof. unfold keeps. simpl. reflexivity. Qed.

Lemma keeps_raise {A} e w : keeps R (@raise A e) w.
Proof. unfold keeps. simpl. reflexivity. Qed.

Lemma keeps_lift {A} (r : result A) w : keeps R (lift r) w.
Proof. unfold keeps. simpl. reflexivity. Qed.

Lemma keeps_bind {A B} (m : M A) (k : A → M B) w :
  keeps R m w →
  (∀ a, (m w).2 = Ok a → keeps R (k a) (m w).1) →
  keeps R (bind m k) w.
Proof.
  unfold keeps, bind. intros Hm Hk.
  destruct (m w) as [w1 [a|e]]; simpl in *; [|done].
  transitivity w1; [done|]. by apply Hk.
Qed.

Lemma keeps_get_world {B} (k : World → M B) w :
  keeps R (k w) w → keeps R (bind get_world k) w.
Proof. done. Qed.

Lemma keeps_unpack3 {B} cs (k : Tree * Tree * Tree → M B) w :
  (∀ a b c, cs = [a; b; c] → keeps R (k (a, b, c)) w) →
  keeps R (bind (unpack3 cs) k) w.
Proof.
  intros Hk. destruct cs as [|a [|b [|c [|d cs]]]]; try apply keeps_raise.
  by apply Hk.
Qed.

Lemma keeps_unpack2 {B} cs (k : Tree * Tree → M B) w :
  (∀ a b, cs = [a; b] → keeps R (k (a, b)) w) →
  keeps R (bind (unpack2 cs) k) w.
Proof.
  intros Hk. destruct cs as [|a [|b [|c cs]]]; try apply keeps_raise.
  by apply Hk.
Qed.

Lemma keeps_identifier {B} get_identifier t (k : string → M B) w :
  (∀ s, keeps R (k s) w) →
  keeps R (bind (identifier get_identifier t) k) w.
Proof.
  intros Hk. unfold keeps, bind, identifier, get_world, lift. simpl.
  destruct (get_identifier t _); simpl; [apply Hk|reflexivity].
Qed.

Lemma keeps_find_fq_columns {B} t (k : list Tree → M B) w :
  (∀ l, keeps R (k l) w) →
  keeps R (bind (find_fq_columns t) k) w.
Proof.
  intros Hk. destruct t; [apply keeps_raise|apply Hk].
Qed.

Lemma keeps_for_each {A} (body : A → M unit) l w :
  (∀ x w, keeps R (body x) w) → keeps R (for_each body l) w.
Proof.
  intros Hbody. revert w. induction l as [|x l IH]; intros w; simpl.
  - apply keeps_ret.
  - apply keeps_bind; [apply Hbody|]. intros _ _. apply IH.
Qed.

End Keeps.

(** ** Nothing recorded is lost *)

(** [q_grows q q']: the scope object [q'] still has every alias of [q]; an
    alias bound to [None] is still bound to [None]; the scope's own
    [_selected_table] is the same. *)
Definition q_grows (q q' : _QueryAliases) : Prop :=
  dom (_aliased_tables q) ⊆ dom (_aliased_tables q')
  ∧ dom (_subquery_aliases q) ⊆ dom (_subquery_aliases q')
  ∧ dom (_aliased_columns q) ⊆ dom (_aliased_columns q')
  ∧ (∀ k, _aliased_columns q !! k = Some PyNone →
          _aliased_columns q' !! k = Some PyNone)
  ∧ _selected_table q' = _selected_table q.

(** [grows w w']: every scope of the registry of [w] is still in the registry
    of [w'], and has grown; a scope that is new in [w'] has no
    [_selected_table] of its own. *)
Definition grows (w w' : World) : Prop :=
  (∀ u q, registry w !! u = Some q →
     ∃ q', registry w' !! u = Some q' ∧ q_grows q q')
  ∧ (∀ u q', registry w !! u = None → registry w' !! u = Some q' →
       _selected_table q' = None).

Lemma q_grows_refl q : q_grows q q.
Proof. by repeat split. Qed.

Lemma q_grows_trans q1 q2 q3 : q_grows q1 q2 → q_grows q2 q3 → q_grows q1 q3.
Proof.
  intros (Ht & Hs & Hc & Hn & Hd) (Ht' & Hs' & Hc' & Hn' & Hd').
  repeat split.
  - by transitivity (dom (_aliased_tables q2)).
  - by transitivity (dom (_subquery_aliases q2)).
  - by transitivity (dom (_aliased_columns q2)).
  - intros k Hk. by apply Hn', Hn.
  - by rewrite Hd'.
Qed.

#[global] Instance grows_preorder : PreOrder grows.
Proof.
  split.
  - intros w. split.
    + intros u q Hq. exists q. split; [done|apply q_grows_refl].
    + intros u q' Hn Hq'. by rewrite Hn in Hq'.
  - intros w1 w2 w3 [H12 N12] [H23 N23]. split.
    + intros u q Hq.
      destruct (H12 u q Hq) as (q2 & Hq2 & Hg2).
      destruct (H23 u q2 Hq2) as (q3 & Hq3 & Hg3).
      exists q3. split; [done|]. by apply q_grows_trans with q2.
    + intros u q3 Hn Hq3. destruct (registry w2 !! u) as [q2|] eqn:Hq2.
      * destruct (H23 u q2 Hq2) as (q3' & Hq3' & _ & _ & _ & _ & Hsel).
        rewrite Hq3 in Hq3'. injection Hq3' as <-. rewrite Hsel.
        by apply N12 with u.
      * by apply N23 with u.
Qed.

Lemma grows_same_registry w w' : registry w' = registry w → grows w w'.
Proof.
  intros Hr. split.
  - intros u q Hq. exists q. rewrite Hr. split; [done|apply q_grows_refl].
  - intros u q' Hn Hq'. by rewrite Hr, Hn in Hq'.
Qed.

Lemma grows_ensure_scope u w : grows w (ensure_scope u w).
Proof.
  split.
  - intros v q Hq. exists q. split; [|apply q_grows_refl].
    rewrite ensure_scope_lookup. case_decide; subst; [|done]. by rewrite Hq.
  - intros v q' Hn. rewrite ensure_scope_lookup. case_decide; subst.
    + rewrite Hn. simpl. by intros [= <-].
    + by rewrite Hn.
Qed.

Lemma grows_update u f w :
  (∀ q, registry w !! u = Some q → q_grows q (f q)) →
  grows w (set_registry (alter f u (registry w)) w).
Proof.
  intros Hf. split.
  - intros v q Hq. rewrite registry_set_registry, lookup_alter.
    case_decide; subst.
    + exists (f q). rewrite Hq. split; [done|]. by apply Hf.
    + exists q. split; [done|apply q_grows_refl].
  - intros v q' Hn. rewrite registry_set_registry, lookup_alter.
    case_decide; subst; by rewrite Hn.
Qed.

Lemma q_grows_set_aliased_table alias table_name q :
  q_grows q (set_aliased_table alias table_name q).
Proof.
  repeat split; try done. simpl. rewrite dom_insert_L. apply union_subseteq_r.
Qed.

Lemma q_grows_set_subquery_alias alias i q :
  q_grows q (set_subquery_alias alias i q).
Proof.
  repeat split; try done. simpl. rewrite dom_insert_L. apply union_subseteq_r.
Qed.

Lemma q_grows_set_aliased_columns alias v q :
  (_aliased_columns q !! alias = Some PyNone → v = PyNone) →
  q_grows q (set_aliased_columns alias v q).
Proof.
  intros Hv. repeat split; try done; simpl.
  - rewrite dom_insert_L. apply union_subseteq_r.
  - intros k Hk. rewrite lookup_insert. case_decide; subst; [|done].
    by rewrite Hv.
Qed.

Lemma keeps_alias_scope (R : relation World) `{!PreOrder R} {B}
    node (k : UUID → M B) w :
  (∀ u, nearest_boundary (meta_parent node) u →
        R w (ensure_scope u w) ∧ keeps R (k u) (ensure_scope u w)) →
  keeps R (bind (_alias_scope node) k) w.
Proof.
  intros Hk. unfold keeps.
  destruct (boundary_above_dec (meta_parent node)) as [Hb|Hb].
  - destruct (boundary_above_nearest _ Hb) as [u Hu].
    erewrite bind_ok by (by apply find_wrapping_query_nearest).
    destruct (Hk u Hu) as [H1 H2]. by transitivity (ensure_scope u w).
  - erewrite bind_raise by (by apply find_wrapping_query_none).
    reflexivity.
Qed.

Section Grows.

Context (get_identifier : Tree → gset string → result string).
Context (is_count_function : Tree → bool).
Context (fq_hash : FqColumn → Z).

Lemma selected_table_grows node w :
  keeps grows (selected_table get_identifier node) w.
Proof.
  unfold selected_table. apply keeps_identifier; [apply _|]. intros s.
  by apply grows_same_registry.
Qed.

Lemma full_query_grows node w : keeps grows (full_query node) w.
Proof.
  unfold keeps, full_query, bind. rewrite setdefault_scope_ensure. simpl.
  apply grows_ensure_scope.
Qed.

Lemma aliased_table_grows node w :
  keeps grows (aliased_table get_identifier node) w.
Proof.
  unfold aliased_table. apply keeps_unpack3; [apply _|]. intros tn an al _.
  apply keeps_identifier; [apply _|]. intros table_name.
  apply keeps_identifier; [apply _|]. intros alias.
  apply keeps_alias_scope; [apply _|]. intros u _.
  split; [apply grows_ensure_scope|].
  apply keeps_bind; [apply _| |].
  - apply grows_update. intros q _. apply q_grows_set_aliased_table.
  - intros _ _. by apply grows_same_registry.
Qed.

Lemma derived_table_grows node w :
  keeps grows (derived_table get_identifier node) w.
Proof.
  unfold derived_table. apply keeps_unpack3; [apply _|]. intros sq an al _.
  apply keeps_identifier; [apply _|]. intros alias.
  apply keeps_alias_scope; [apply _|]. intros u _.
  split; [apply grows_ensure_scope|].
  destruct sq as [v|d i cs]; [apply keeps_raise; apply _|].
  apply grows_update. intros q _. apply q_grows_set_subquery_alias.
Qed.

Lemma resolve_table_grows {B} node t (k : string → M B) w :
  (∀ w' s, grows w w' → keeps grows (k s) w') →
  keeps grows (bind (_resolve_table node t) k) w.
Proof.
  intros Hk. unfold keeps, _resolve_table.
  destruct (boundary_above_dec (meta_parent node)) as [Hb|Hb].
  - destruct (boundary_above_nearest _ Hb) as [u Hu].
    erewrite bind_ok.
    2: { erewrite bind_ok by (by apply find_wrapping_query_nearest). done. }
    transitivity (ensure_scope u w); [apply grows_ensure_scope|].
    apply Hk, grows_ensure_scope.
  - erewrite bind_raise.
    2: { erewrite bind_raise by (by apply find_wrapping_query_none). done. }
    reflexivity.
Qed.

Lemma dd_getitem_grows {B} u alias (k : ColumnsValue → M B) w :
  (∀ w' v, grows w w' → keeps grows (k v) w') →
  keeps grows (bind (dd_getitem u alias) k) w.
Proof.
  intros Hk. unfold keeps, dd_getitem.
  destruct (_aliased_columns (scope w u) !! alias) as [v|] eqn:Hv.
  - erewrite bind_ok.
    2: { unfold bind, get_world. by rewrite Hv. }
    by apply Hk.
  - erewrite bind_ok.
    2: { unfold bind, get_world. by rewrite Hv. }
    assert (grows w (set_registry
              (alter (set_aliased_columns alias (PySet [])) u (registry w)) w)) as Hg.
    { apply grows_update. intros q Hq. apply q_grows_set_aliased_columns.
      unfold scope in Hv. rewrite Hq in Hv. simpl in Hv. by rewrite Hv. }
    transitivity (set_registry
              (alter (set_aliased_columns alias (PySet [])) u (registry w)) w);
      [done|]. by apply Hk.
Qed.

Lemma add_column_grows u alias v t c w :
  keeps grows (add_column fq_hash u alias v t c) w.
Proof.
  unfold add_column. destruct v as [|s]; [apply keeps_raise; apply _|].
  unfold keeps, bind, get_world, put_heap, update_scope. simpl.
  transitivity ({| heap := heap w ++ [{| table := t; column := c |}]; self := self w |}).
  { by apply grows_same_registry. }
  apply grows_update. intros q Hq.
  destruct (_aliased_columns q !! alias) as [[|s']|] eqn:Hq'; try apply q_grows_refl.
  apply q_grows_set_aliased_columns. by rewrite Hq'.
Qed.

Lemma record_fq_column_grows node u alias n w :
  keeps grows (record_fq_column get_identifier fq_hash node u alias n) w.
Proof.
  unfold record_fq_column. apply keeps_unpack2; [apply _|]. intros tn cn _.
  apply keeps_identifier; [apply _|]. intros t.
  apply keeps_identifier; [apply _|]. intros c.
  apply resolve_table_grows. intros w1 t' _.
  apply dd_getitem_grows. intros w2 v _.
  apply add_column_grows.
Qed.

Lemma aliased_column_grows node w :
  keeps grows (aliased_column get_identifier is_count_function fq_hash node) w.
Proof.
  unfold aliased_column.
  apply keeps_alias_scope; [apply _|]. intros u _.
  split; [apply grows_ensure_scope|].
  apply keeps_unpack3; [apply _|]. intros vn an al _.
  apply keeps_identifier; [apply _|]. intros alias.
  destruct (is_count_function vn).
  - apply grows_update. intros q _. by apply q_grows_set_aliased_columns.
  - apply keeps_find_fq_columns; [apply _|]. intros l.
    apply keeps_bind; [apply _| |].
    + apply keeps_for_each; [apply _|]. intros n w'.
      apply record_fq_column_grows.
    + intros _ _. destruct l; [|apply keeps_ret; apply _].
      apply grows_update. intros q _. by apply q_grows_set_aliased_columns.
Qed.

Lemma visit_node_grows node w :
  keeps grows (visit_node get_identifier is_count_function fq_hash node) w.
Proof.
  unfold visit_node.
  repeat (case_match; [solve
    [ apply selected_table_grows | apply full_query_grows
    | apply aliased_table_grows | apply derived_table_grows
    | apply aliased_column_grows ]|]).
  apply keeps_ret. apply _.
Qed.

Lemma visit_all_grows nodes w :
  keeps grows (visit_all get_identifier is_count_function fq_hash nodes) w.
Proof. apply keeps_for_each; [apply _|]. intros n w'. apply visit_node_grows. Qed.

End Grows.

(** ** Scope isolation *)

(** What a reader of a scope sees of [_aliased_columns]: for every alias,
    [None] or the columns read through the references of the set. *)
Definition read_value (h : list FqColumn) (v : ColumnsValue)
    : option (list (option FqColumn)) :=
  match v with
  | PyNone => None
  | PySet s => Some ((λ e, h !! entry_key e) <$> s)
  end.

Definition columns_view (w : World) (u : UUID)
    : gmap string (option (list (option FqColumn))) :=
  read_value (heap w) <$> _aliased_columns (scope w u).

(** The worlds Python can build: a reference held by a set points into the
    heap, and no object is held by the sets of two scopes. *)
Definition well_formed (w : World) : Prop :=
  (∀ u a, recorded (scope w u) a → (a < length (heap w))%nat)
  ∧ (∀ u v a, recorded (scope w u) a → recorded (scope w v) a → u = v).

(** [outside node w w']: the registry entries of all scopes but the nearest
    enclosing query of [node] are the same in [w'] as in [w], and so is what
    their readers see of the columns. *)
Definition outside (node : VNode) (w w' : World) : Prop :=
  (∀ v, ¬ nearest_boundary (meta_parent node) v →
        registry w' !! v = registry w !! v)
  ∧ (well_formed w →
     well_formed w'
     ∧ ∀ v, ¬ nearest_boundary (meta_parent node) v →
            columns_view w' v = columns_view w v).

#[global] Instance outside_preorder node : PreOrder (outside node).
Proof.
  split.
  - intros w. split; [done|]. by intros Hwf.
  - intros w1 w2 w3 [H12 V12] [H23 V23]. split.
    + intros v Hv. by rewrite (H23 v Hv), (H12 v Hv).
    + intros Hwf. destruct (V12 Hwf) as [Hwf2 E12].
      destruct (V23 Hwf2) as [Hwf3 E23]. split; [done|].
      intros v Hv. by rewrite (E23 v Hv), (E12 v Hv).
Qed.

Lemma recorded_new a : ¬ recorded new_QueryAliases a.
Proof. intros (k & s & e & Hk & _). simpl in Hk. by rewrite lookup_empty in Hk. Qed.

Lemma recorded_same_columns q q' a :
  _aliased_columns q' = _aliased_columns q → recorded q' a → recorded q a.
Proof. unfold recorded. by intros ->. Qed.

Lemma recorded_set_aliased_columns_empty alias v q a :
  entries_of v = [] → recorded (set_aliased_columns alias v q) a → recorded q a.
Proof.
  intros Hv (k & s & e & Hk & He & Ha). simpl in Hk.
  rewrite lookup_insert in Hk. case_decide; subst.
  - injection Hk as ->. simpl in Hv. subst. by apply elem_of_nil in He.
  - by exists k, s, e.
Qed.

Lemma columns_view_ext w w' v :
  scope w' v = scope w v →
  (∀ a, recorded (scope w v) a → heap w' !! a = heap w !! a) →
  columns_view w' v = columns_view w v.
Proof.
  intros Hs Hh. unfold columns_view. rewrite Hs. apply map_eq. intros k.
  rewrite !lookup_fmap.
  destruct (_aliased_columns (scope w v) !! k) as [[|s]|] eqn:Hk; try done.
  simpl. do 2 f_equal. apply list_fmap_ext. intros i e He. apply Hh.
  exists k, s, e. split; [done|]. split; [|done].
  by apply list_elem_of_lookup_2 with i.
Qed.

(** A step that allocates nothing in other scopes and leaves their objects
    alone. *)
Lemma outside_step node u w w' :
  nearest_boundary (meta_parent node) u →
  (length (heap w) ≤ length (heap w'))%nat →
  (∀ v, v ≠ u → registry w' !! v = registry w !! v) →
  (∀ a, recorded (scope w' u) a → recorded (scope w u) a) →
  (well_formed w →
   ∀ v a, v ≠ u → recorded (scope w v) a → heap w' !! a = heap w !! a) →
  outside node w w'.
Proof.
  intros Hu Hlen Hreg Hrec Hheap.
  assert (∀ v, v ≠ u → scope w' v = scope w v) as Hscope.
  { intros v Hv. unfold scope. by rewrite Hreg. }
  assert (∀ v a, recorded (scope w' v) a → recorded (scope w v) a) as Hrec'.
  { intros v a. destruct (decide (v = u)) as [->|Hv]; [apply Hrec|].
    by rewrite Hscope. }
  split.
  - intros v Hv. apply Hreg. by intros ->.
  - intros [Hb Hs]. split; [split|].
    + intros v a Ha. apply Hrec' in Ha. apply Hb in Ha. lia.
    + intros v1 v2 a H1 H2. apply Hs with a; by apply Hrec'.
    + intros v Hv. assert (v ≠ u) as Hvu by (by intros ->).
      apply columns_view_ext; [by apply Hscope|].
      intros a Ha. by apply Hheap with v.
Qed.

Lemma outside_ensure_scope node u w :
  nearest_boundary (meta_parent node) u → outside node w (ensure_scope u w).
Proof.
  intros Hu. apply outside_step with u; try done.
  - by rewrite ensure_scope_heap.
  - intros v Hv. rewrite ensure_scope_lookup. by rewrite decide_False.
  - intros a. by rewrite ensure_scope_scope.
  - intros _ v a _ _. by rewrite ensure_scope_heap.
Qed.

Lemma outside_update node u f w :
  nearest_boundary (meta_parent node) u →
  (∀ q a, recorded (f q) a → recorded q a) →
  outside node w (set_registry (alter f u (registry w)) w).
Proof.
  intros Hu Hf. apply outside_step with u; try done.
  - intros v Hv. rewrite registry_set_registry, lookup_alter.
    by rewrite decide_False.
  - intros a. rewrite scope_alter, decide_True by done. unfold scope.
    destruct (registry w !! u); simpl; [apply Hf|].
    intros Ha. by apply recorded_new in Ha.
Qed.

Lemma outside_backfill node u alias table_name w :
  nearest_boundary (meta_parent node) u →
  outside node w
    {| heap := backfill alias table_name
                 (map_to_list (_aliased_columns (scope w u))).*2 (heap w);
       self := self w |}.
Proof.
  intros Hu. apply outside_step with u; try done.
  - simpl. by rewrite backfill_length.
  - intros [Hb Hs] v a Hv Ha. simpl. rewrite backfill_lookup.
    rewrite decide_False; [done|]. intros Hin.
    apply recorded_addresses in Hin. apply Hv. by apply Hs with a.
Qed.

Section Outside.

Context (get_identifier : Tree → gset string → result string).
Context (is_count_function : Tree → bool).
Context (fq_hash : FqColumn → Z).

Lemma set_add_entries h s a c e :
  e ∈ set_add fq_hash h s a c → e ∈ s ∨ entry_key e = a.
Proof.
  unfold set_add. destruct (set_contains fq_hash h s c); [by left|].
  rewrite elem_of_app, list_elem_of_singleton. intros [?| ->]; [by left|by right].
Qed.

Lemma outside_add_column node u alias v t c w :
  nearest_boundary (meta_parent node) u →
  keeps (outside node) (add_column fq_hash u alias v t c) w.
Proof.
  intros Hu. unfold add_column.
  destruct v as [|s0]; [apply keeps_raise; apply _|].
  unfold keeps, bind, get_world, put_heap, update_scope. cbn [fst snd].
  set (col := {| table := t; column := c |}).
  set (f := λ q, match _aliased_columns q !! alias with
                 | Some (PySet s) =>
                     set_aliased_columns alias
                       (PySet (set_add fq_hash (heap w) s (length (heap w)) col)) q
                 | _ => q
                 end).
  set (w1 := {| heap := heap w ++ [col]; self := self w |}).
  assert (∀ v, scope (set_registry (alter f u (registry w1)) w1) v
               = if decide (u = v)
                 then match registry w !! u with
                      | Some q => f q | None => new_QueryAliases end
                 else scope w v) as Hscope.
  { intros v. by rewrite scope_alter. }
  assert (∀ q a, recorded (f q) a → recorded q a ∨ a = length (heap w)) as Hf.
  { intros q a. unfold f.
    destruct (_aliased_columns q !! alias) as [[|s]|] eqn:Hq; try by left.
    intros (k & s' & e & Hk & He & Ha). simpl in Hk.
    rewrite lookup_insert in Hk. case_decide as Hd.
    - injection Hk as <-. apply set_add_entries in He as [He|He].
      + left. by exists alias, s, e.
      + right. by rewrite <- Ha, He.
    - left. by exists k, s', e. }
  assert (∀ v a, recorded (scope (set_registry (alter f u (registry w1)) w1) v) a →
                 recorded (scope w v) a ∨ (v = u ∧ a = length (heap w))) as Hrec.
  { intros v a. rewrite Hscope. case_decide; subst; [|by left].
    unfold scope. destruct (registry w !! v); simpl.
    - intros Ha. apply Hf in Ha as [?|?]; [by left|by right].
    - intros Ha. by apply recorded_new in Ha. }
  split.
  - intros v Hv. rewrite registry_set_registry, lookup_alter.
    rewrite decide_False; [done|]. by intros ->.
  - intros [Hb Hs]. split; [split|].
    + intros v a Ha. cbn [heap set_registry w1]. rewrite length_app. simpl.
      apply Hrec in Ha as [Ha|[_ Ha]]; [apply Hb in Ha|]; lia.
    + intros v1 v2 a H1 H2.
      apply Hrec in H1 as [H1|[Hv1 Ha1]]; apply Hrec in H2 as [H2|[Hv2 Ha2]].
      * by apply Hs with a.
      * subst a. apply Hb in H1. lia.
      * subst a. apply Hb in H2. lia.
      * by subst.
    + intros v Hv. assert (v ≠ u) as Hvu by (by intros ->).
      apply columns_view_ext.
      * rewrite Hscope. by rewrite decide_False.
      * intros a Ha. cbn [heap set_registry w1]. apply Hb in Ha.
        by rewrite lookup_app_l.
Qed.

Lemma aliased_table_outside node w :
  keeps (outside node) (aliased_table get_identifier node) w.
Proof.
  unfold aliased_table. apply keeps_unpack3; [apply _|]. intros tn an al _.
  apply keeps_identifier; [apply _|]. intros table_name.
  apply keeps_identifier; [apply _|]. intros alias.
  apply keeps_alias_scope; [apply _|]. intros u Hu.
  split; [by apply outside_ensure_scope|].
  apply keeps_bind; [apply _| |].
  - apply outside_update; [done|]. intros q a. by apply recorded_same_columns.
  - intros _ _. apply keeps_get_world. by apply outside_backfill.
Qed.

Lemma derived_table_outside node w :
  keeps (outside node) (derived_table get_identifier node) w.
Proof.
  unfold derived_table. apply keeps_unpack3; [apply _|]. intros sq an al _.
  apply keeps_identifier; [apply _|]. intros alias.
  apply keeps_alias_scope; [apply _|]. intros u Hu.
  split; [by apply outside_ensure_scope|].
  destruct sq as [v|d i cs]; [apply keeps_raise; apply _|].
  apply outside_update; [done|]. intros q a. by apply recorded_same_columns.
Qed.

Lemma record_fq_column_outside node u alias n w :
  nearest_boundary (meta_parent node) u →
  keeps (outside node) (record_fq_column get_identifier fq_hash node u alias n) w.
Proof.
  intros Hu. unfold record_fq_column.
  apply keeps_unpack2; [apply _|]. intros tn cn _.
  apply keeps_identifier; [apply _|]. intros t.
  apply keeps_identifier; [apply _|]. intros c.
  unfold _resolve_table.
  apply keeps_bind; [apply _| |].
  - apply keeps_alias_scope; [apply _|]. intros u' Hu'.
    split; [by apply outside_ensure_scope|]. apply keeps_get_world.
    apply keeps_ret. apply _.
  - intros t' _. apply keeps_bind; [apply _| |].
    + unfold dd_getitem. apply keeps_get_world.
      destruct (_aliased_columns _ !! alias).
      * apply keeps_ret. apply _.
      * apply keeps_bind; [apply _| |].
        -- apply outside_update; [done|]. intros q a.
           by apply recorded_set_aliased_columns_empty.
        -- intros _ _. apply keeps_ret. apply _.
    + intros v _. by apply outside_add_column.
Qed.

Lemma aliased_column_outside node w :
  keeps (outside node)
    (aliased_column get_identifier is_count_function fq_hash node) w.
Proof.
  unfold aliased_column.
  apply keeps_alias_scope; [apply _|]. intros u Hu.
  split; [by apply outside_ensure_scope|].
  apply keeps_unpack3; [apply _|]. intros vn an al _.
  apply keeps_identifier; [apply _|]. intros alias.
  destruct (is_count_function vn).
  - apply outside_update; [done|]. intros q a.
    by apply recorded_set_aliased_columns_empty.
  - apply keeps_find_fq_columns; [apply _|]. intros l.
    apply keeps_bind; [apply _| |].
    + apply keeps_for_each; [apply _|]. intros n w'.
      by apply record_fq_column_outside.
    + intros _ _. destruct l; [|apply keeps_ret; apply _].
      apply outside_update; [done|]. intros q a.
      by apply recorded_set_aliased_columns_empty.
Qed.

End Outside.

(** ** The worlds the collector builds are well formed *)

Definition stays_well_formed (w w' : World) : Prop :=
  well_formed w → well_formed w'.

#[global] Instance stays_well_formed_preorder : PreOrder stays_well_formed.
Proof.
  split.
  - by intros w Hw.
  - intros w1 w2 w3 H12 H23 Hw. by apply H23, H12.
Qed.

Lemma well_formed_new reserved_keywords : well_formed (new_World reserved_keywords).
Proof.
  split.
  - intros u a Ha. by apply recorded_new in Ha.
  - intros u v a Ha. by apply recorded_new in Ha.
Qed.

Lemma well_formed_same w w' :
  (∀ v, scope w' v = scope w v) → heap w' = heap w →
  stays_well_formed w w'.
Proof.
  intros Hs Hh [Hb Hsep]. split.
  - intros u a. rewrite Hs, Hh. apply Hb.
  - intros u v a. rewrite !Hs. apply Hsep.
Qed.

Section Invariants.

Context (get_identifier : Tree → gset string → result string).
Context (is_count_function : Tree → bool).
Context (fq_hash : FqColumn → Z).

Lemma outside_stays_well_formed {A} node (m : M A) w :
  keeps (outside node) m w → keeps stays_well_formed m w.
Proof. intros [_ H] Hw. by apply H. Qed.

Lemma visit_node_well_formed node w :
  keeps stays_well_formed
    (visit_node get_identifier is_count_function fq_hash node) w.
Proof.
  unfold visit_node. repeat case_match.
  - unfold selected_table. apply keeps_identifier; [apply _|]. intros s.
    by apply well_formed_same.
  - unfold keeps, full_query, bind. rewrite setdefault_scope_ensure. simpl.
    apply well_formed_same; [apply ensure_scope_scope|apply ensure_scope_heap].
  - apply outside_stays_well_formed with node, aliased_table_outside.
  - apply outside_stays_well_formed with node, derived_table_outside.
  - apply outside_stays_well_formed with node, aliased_column_outside.
  - apply keeps_ret. apply _.
Qed.

(** Every world reached by a traversal from a new collector is well formed. *)
Lemma well_formed_reachable reserved_keywords nodes :
  well_formed
    (visit_all get_identifier is_count_function fq_hash nodes
       (new_World reserved_keywords)).1.
Proof.
  assert (keeps stays_well_formed
            (visit_all get_identifier is_count_function fq_hash nodes)
            (new_World reserved_keywords)) as H.
  { apply keeps_for_each; [apply _|]. intros n w. apply visit_node_well_formed. }
  apply H, well_formed_new.
Qed.

(** *** C5: aliases are recorded in the scope of the node only *)

(** C5.  Whatever the outcome of [aliased_table], [derived_table] or
    [aliased_column] on a node, the registry entry of every scope other than
    the nearest enclosing query of the node is what it was, and in a well
    formed world the columns a reader sees in such a scope are what they
    were; resolving a table name for the node reads the [_aliased_tables] of
    the nearest enclosing query and of no other scope. *)
Theorem aliases_stay_in_their_scope node w v :
  ¬ nearest_boundary (meta_parent node) v →
  (registry (aliased_table get_identifier node w).1 !! v = registry w !! v
   ∧ registry (derived_table get_identifier node w).1 !! v = registry w !! v
   ∧ registry (aliased_column get_identifier is_count_function fq_hash node w).1 !! v
     = registry w !! v)
  ∧ (well_formed w →
     columns_view (aliased_table get_identifier node w).1 v = columns_view w v
     ∧ columns_view (derived_table get_identifier node w).1 v = columns_view w v
     ∧ columns_view
         (aliased_column get_identifier is_count_function fq_hash node w).1 v
       = columns_view w v)
  ∧ (∀ u name, nearest_boundary (meta_parent node) u →
       (_resolve_table node name w).2
       = Ok (default name (_aliased_tables (scope w u) !! name))).
Proof.
  intros Hv.
  destruct (aliased_table_outside get_identifier node w) as [T1 T2].
  destruct (derived_table_outside get_identifier node w) as [D1 D2].
  destruct (aliased_column_outside get_identifier is_count_function fq_hash node w)
    as [C1 C2].
  split; [|split].
  - auto.
  - intros Hw. destruct (T2 Hw) as [_ T3]. destruct (D2 Hw) as [_ D3].
    destruct (C2 Hw) as [_ C3]. auto.
  - intros u name Hu. unfold _resolve_table.
    erewrite bind_ok by (by apply alias_scope_ok).
    unfold bind, get_world, ret. simpl. by rewrite ensure_scope_scope.
Qed.

(** *** C6: an alias bound to [None] stays bound to [None] *)

(** C6.  Once [_aliased_columns[alias]] is [None] in a scope, it is [None]
    after any call of [aliased_column] (also for the same alias name, and
    also when the call raises), after any call of [aliased_table] with its
    backfill, and after any further traversal of any nodes. *)
Theorem none_is_permanent w u q alias :
  registry w !! u = Some q →
  _aliased_columns q !! alias = Some PyNone →
  (∀ node, ∃ q',
     registry (aliased_column get_identifier is_count_function fq_hash node w).1 !! u
     = Some q' ∧ _aliased_columns q' !! alias = Some PyNone)
  ∧ (∀ node, ∃ q',
       registry (aliased_table get_identifier node w).1 !! u = Some q'
       ∧ _aliased_columns q' !! alias = Some PyNone)
  ∧ (∀ nodes, ∃ q',
       registry (visit_all get_identifier is_count_function fq_hash nodes w).1 !! u
       = Some q' ∧ _aliased_columns q' !! alias = Some PyNone).
Proof.
  intros Hq Hnone.
  assert (∀ w', grows w w' →
            ∃ q', registry w' !! u = Some q'
                  ∧ _aliased_columns q' !! alias = Some PyNone) as Hgrow.
  { intros w' [Hg _]. destruct (Hg u q Hq) as (q' & Hq' & _ & _ & _ & Hn & _).
    exists q'. split; [done|]. by apply Hn. }
  split; [|split].
  - intros node. apply Hgrow, aliased_column_grows.
  - intros node. apply Hgrow, aliased_table_grows.
  - intros nodes. apply Hgrow, visit_all_grows.
Qed.

(** *** C10: nothing recorded is discarded *)

(** C10.  [full_query] on a node whose scope is already in the registry
    changes nothing, and so does the scope lookup when the nearest enclosing
    query is already in the registry; after any traversal, every scope of the
    registry is still there and still has every key of its
    [_aliased_tables], [_subquery_aliases] and [_aliased_columns]. *)
Theorem nothing_is_discarded :
  (∀ node w q, registry w !! meta_id node = Some q →
     full_query node w = (w, Ok tt))
  ∧ (∀ node w u q, nearest_boundary (meta_parent node) u →
       registry w !! u = Some q → _alias_scope node w = (w, Ok u))
  ∧ (∀ nodes w u q, registry w !! u = Some q →
       ∃ q', registry (visit_all get_identifier is_count_function fq_hash nodes w).1 !! u
             = Some q'
         ∧ dom (_aliased_tables q) ⊆ dom (_aliased_tables q')
         ∧ dom (_subquery_aliases q) ⊆ dom (_subquery_aliases q')
         ∧ dom (_aliased_columns q) ⊆ dom (_aliased_columns q')).
Proof.
  split; [|split].
  - intros node w q Hq. unfold full_query, bind.
    rewrite setdefault_scope_ensure. by rewrite (ensure_scope_present _ _ _ Hq).
  - intros node w u q Hu Hq. rewrite (alias_scope_ok _ _ _ Hu).
    by rewrite (ensure_scope_present _ _ _ Hq).
  - intros nodes w u q Hq.
    destruct (visit_all_grows get_identifier is_count_function fq_hash nodes w)
      as [Hg _].
    destruct (Hg u q Hq) as (q' & Hq' & Ht & Hs & Hc & _).
    by exists q'.
Qed.

(** The collector after [selected_table] has read the name [name]. *)
Definition after_selected_table (name : string) (w : World) : World :=
  {| heap := heap w;
     self := {| _query_aliases := _query_aliases (self w);
                _reserved_keywords := _reserved_keywords (self w);
                self_selected_table := Some name |} |}.

Lemma selected_table_run node w name :
  get_identifier (Node (data node) (meta_id node) (children node))
    (_reserved_keywords (self w)) = Ok name →
  selected_table get_identifier node w = (after_selected_table name w, Ok tt).
Proof.
  intros Hname. unfold selected_table.
  run_with (by apply identifier_ok). done.
Qed.

(** No traversal ever sets the [_selected_table] of a scope object. *)
Lemma scope_selected_table_never_set reserved_keywords nodes u q :
  registry (visit_all get_identifier is_count_function fq_hash nodes
              (new_World reserved_keywords)).1 !! u = Some q →
  _selected_table q = None.
Proof.
  destruct (visit_all_grows get_identifier is_count_function fq_hash nodes
              (new_World reserved_keywords)) as [_ Hnew].
  by apply Hnew.
Qed.

End Invariants.

(** ** The loop of [aliased_column] *)

(** The members of a value of [_aliased_columns] ([None] has none). *)
Definition members (v : option ColumnsValue) : list SetEntry :=
  match v with
  | Some (PySet s) => s
  | _ => []
  end.

(** [fq_reference kw n r]: the node [n] is an [fq_column] node whose two
    children read as the table part [r.1] and the column part [r.2]. *)
Definition fq_reference (get_identifier : Tree → gset string → result string)
    (kw : gset string) (n : Tree) (r : string * string) : Prop :=
  ∃ d i tn cn, n = Node d i [tn; cn]
    ∧ get_identifier tn kw = Ok r.1 ∧ get_identifier cn kw = Ok r.2.

(** The column stored for the reference [r] in a scope whose table aliases
    are [tables]: one lookup of the table part. *)
Definition stored_column (tables : gmap string string) (r : string * string) : FqColumn :=
  {| table := match tables !! r.1 with Some t => t | None => r.1 end;
     column := r.2 |}.

Section Loop.

Context (get_identifier : Tree → gset string → result string).
Context (is_count_function : Tree → bool).
Context (fq_hash : FqColumn → Z).

(** The world after one iteration of the loop, for the reference [r]. *)
Definition after_record (u : UUID) (alias : string) (w : World) (r : string * string) : World :=
  let q := scope w u in
  let col := stored_column (_aliased_tables q) r in
  let s := members (_aliased_columns q !! alias) in
  set_registry
    (<[u := set_aliased_columns alias
              (PySet (set_add fq_hash (heap w) s (length (heap w)) col)) q]>
       (registry w))
    {| heap := heap w ++ [col]; self := self w |}.

Lemma resolve_table_run node u name w :
  nearest_boundary (meta_parent node) u →
  is_Some (registry w !! u) →
  _resolve_table node name w
  = (w, Ok (match _aliased_tables (scope w u) !! name with
            | Some t => t | None => name end)).
Proof.
  intros Hu [q Hq]. unfold _resolve_table.
  run_with (by apply alias_scope_ok).
  rewrite (ensure_scope_present _ _ _ Hq).
  unfold bind, get_world, ret. simpl.
  by destruct (_aliased_tables (scope w u) !! name).
Qed.

Lemma record_fq_column_run node u alias n r w :
  nearest_boundary (meta_parent node) u →
  is_Some (registry w !! u) →
  _aliased_columns (scope w u) !! alias ≠ Some PyNone →
  fq_reference get_identifier (_reserved_keywords (self w)) n r →
  record_fq_column get_identifier fq_hash node u alias n w
  = (after_record u alias w r, Ok tt).
Proof.
  intros Hu Hsome Hnone (d & i & tn & cn & -> & Ht & Hc).
  destruct r as [t c]. simpl in Ht, Hc.
  unfold record_fq_column.
  run_with reflexivity. cbn beta iota.
  run_with (by apply identifier_ok).
  run_with (by apply identifier_ok).
  run_with (by apply resolve_table_run).
  destruct Hsome as [q Hq].
  assert (scope w u = q) as Hscope by (unfold scope; by rewrite Hq).
  unfold after_record, stored_column. cbn [fst snd]. rewrite Hscope in *.
  set (col := {| table := match _aliased_tables q !! t with
                          | Some t0 => t0 | None => t end; column := c |}).
  destruct (_aliased_columns q !! alias) as [[|s]|] eqn:Hcols; [done| |].
  - erewrite bind_ok.
    2: { unfold dd_getitem, bind, get_world. by rewrite Hscope, Hcols. }
    unfold add_column, bind, get_world, put_heap, update_scope, set_registry.
    cbn [fst snd heap self _query_aliases _reserved_keywords self_selected_table
         registry members].
    do 3 f_equal. apply map_eq. intros v.
    rewrite lookup_alter, lookup_insert.
    destruct (decide (u = v)) as [<-|Hne]; [|done].
    unfold registry in *. simpl. rewrite Hq. simpl. by rewrite Hcols.
  - erewrite bind_ok.
    2: { unfold dd_getitem, bind, get_world. rewrite Hscope, Hcols. done. }
    unfold add_column, bind, get_world, put_heap, update_scope, set_registry.
    cbn [fst snd heap self _query_aliases _reserved_keywords self_selected_table
         registry members].
    do 3 f_equal. apply map_eq. intros v.
    rewrite !lookup_alter, lookup_insert.
    destruct (decide (u = v)) as [<-|Hne]; [|done].
    unfold registry in *. simpl. rewrite Hq. simpl.
    rewrite (decide_True (P := u = u)) by done. simpl.
    rewrite lookup_insert_eq.
    unfold set_aliased_columns. simpl. by rewrite insert_insert_eq.
Qed.

Lemma after_record_registry u alias w r v :
  registry (after_record u alias w r) !! v
  = if decide (u = v)
    then Some (set_aliased_columns alias
                 (PySet (set_add fq_hash (heap w)
                           (members (_aliased_columns (scope w u) !! alias))
                           (length (heap w))
                           (stored_column (_aliased_tables (scope w u)) r)))
                 (scope w u))
    else registry w !! v.
Proof.
  unfold after_record. rewrite registry_set_registry, lookup_insert.
  by case_decide.
Qed.

Lemma after_record_scope u alias w r :
  scope (after_record u alias w r) u
  = set_aliased_columns alias
      (PySet (set_add fq_hash (heap w)
                (members (_aliased_columns (scope w u) !! alias))
                (length (heap w))
                (stored_column (_aliased_tables (scope w u)) r)))
      (scope w u).
Proof.
  unfold scope at 1. rewrite after_record_registry.
  by rewrite (decide_True (P := u = u)).
Qed.

Lemma after_record_heap u alias w r :
  heap (after_record u alias w r)
  = heap w ++ [stored_column (_aliased_tables (scope w u)) r].
Proof. done. Qed.

Lemma after_record_keywords u alias w r :
  _reserved_keywords (self (after_record u alias w r))
  = _reserved_keywords (self w).
Proof. done. Qed.

Lemma set_add_prefix h s a c : s `prefix_of` set_add fq_hash h s a c.
Proof.
  unfold set_add. destruct (set_contains fq_hash h s c); [done|].
  by apply prefix_app_r.
Qed.

Lemma set_add_member h s c :
  ∃ e, e ∈ set_add fq_hash h s (length h) c
       ∧ (h ++ [c]) !! entry_key e = Some c.
Proof.
  unfold set_add. destruct (set_contains fq_hash h s c) eqn:Hc.
  - unfold set_contains in Hc. apply existsb_exists in Hc as (e & He & Hc).
    apply andb_true_iff in Hc as [_ Hc]. apply bool_decide_eq_true in Hc.
    exists e. split; [by apply list_elem_of_In|]. by apply lookup_app_l_Some.
  - exists {| entry_hash := fq_hash c; entry_key := length h |}. split.
    + apply elem_of_app. right. by apply list_elem_of_singleton.
    + simpl. by rewrite list_lookup_middle.
Qed.

(** The world after the whole loop. *)
Definition after_records (u : UUID) (alias : string) (w : World)
    (refs : list (string * string)) : World :=
  foldl (after_record u alias) w refs.

Lemma for_each_record_run node u alias nodes refs w :
  nearest_boundary (meta_parent node) u →
  is_Some (registry w !! u) →
  _aliased_columns (scope w u) !! alias ≠ Some PyNone →
  Forall2 (fq_reference get_identifier (_reserved_keywords (self w))) nodes refs →
  for_each (record_fq_column get_identifier fq_hash node u alias) nodes w
  = (after_records u alias w refs, Ok tt).
Proof.
  intros Hu Hsome Hnone Hrefs. revert w Hsome Hnone Hrefs.
  unfold after_records.
  induction nodes as [|n nodes IH] in refs |- *; intros w Hsome Hnone Hrefs.
  - by apply Forall2_nil_inv_l in Hrefs as ->.
  - apply Forall2_cons_inv_l in Hrefs as (r & refs' & Hr & Hrefs & ->).
    cbn [for_each foldl].
    run_with (by apply record_fq_column_run).
    apply IH.
    + rewrite after_record_registry. by rewrite (decide_True (P := u = u)).
    + rewrite after_record_scope. simpl. by rewrite lookup_insert_eq.
    + by rewrite after_record_keywords.
Qed.

Lemma after_records_spec u alias refs w :
  let w' := after_records u alias w refs in
  let tables := _aliased_tables (scope w u) in
  let old := members (_aliased_columns (scope w u) !! alias) in
  let s' := members (_aliased_columns (scope w' u) !! alias) in
  (∀ v, v ≠ u → registry w' !! v = registry w !! v)
  ∧ _aliased_tables (scope w' u) = tables
  ∧ _subquery_aliases (scope w' u) = _subquery_aliases (scope w u)
  ∧ _selected_table (scope w' u) = _selected_table (scope w u)
  ∧ (∀ k, k ≠ alias →
       _aliased_columns (scope w' u) !! k = _aliased_columns (scope w u) !! k)
  ∧ heap w' = heap w ++ (stored_column tables <$> refs)
  ∧ (refs ≠ [] → _aliased_columns (scope w' u) !! alias = Some (PySet s'))
  ∧ old `prefix_of` s'
  ∧ (∀ e, e ∈ s' → e ∈ old
       ∨ ∃ r, r ∈ refs ∧ heap w' !! entry_key e = Some (stored_column tables r))
  ∧ (∀ r, r ∈ refs →
       ∃ e, e ∈ s' ∧ heap w' !! entry_key e = Some (stored_column tables r)).
Proof.
  unfold after_records. revert w.
  induction refs as [|r refs IH]; intros w; cbn [foldl].
  - repeat split; try done.
    + by rewrite app_nil_r.
    + intros e He. by left.
    + intros r Hr. by apply elem_of_nil in Hr.
  - specialize (IH (after_record u alias w r)). cbn zeta in IH.
    destruct IH as (Hv & Ht & Hsq & Hsel & Hk & Hh & Hset & Hpre & Hnew & Hall).
    rewrite after_record_scope in Ht, Hsq, Hsel, Hk, Hh, Hpre, Hnew, Hall.
    cbn [set_aliased_columns _aliased_tables _subquery_aliases _selected_table
         _aliased_columns] in Ht, Hsq, Hsel, Hk, Hh, Hpre, Hnew, Hall.
    rewrite lookup_insert_eq in Hpre, Hnew.
    cbn [members] in Hpre, Hnew.
    rewrite after_record_heap in Hh.
    set (w' := foldl (after_record u alias) (after_record u alias w r) refs) in *.
    set (tables := _aliased_tables (scope w u)) in *.
    set (old := members (_aliased_columns (scope w u) !! alias)) in *.
    set (s1 := set_add fq_hash (heap w) old (length (heap w))
                 (stored_column tables r)) in *.
    assert (heap w' = heap w ++ (stored_column tables <$> r :: refs)) as Hheap.
    { rewrite Hh, fmap_cons. by rewrite <- app_assoc. }
    cbn zeta. repeat split; try done.
    + intros v Hvu. rewrite (Hv v Hvu), after_record_registry.
      by rewrite decide_False.
    + intros k Hka. rewrite (Hk k Hka). simpl. by rewrite lookup_insert_ne.
    + intros _. destruct refs as [|r' refs'].
      * subst w'. cbn [foldl]. rewrite after_record_scope. simpl.
        by rewrite lookup_insert_eq.
      * by apply Hset.
    + transitivity s1; [apply set_add_prefix|done].
    + intros e He. apply Hnew in He as [He|(r' & Hr' & He)].
      * apply set_add_entries in He as [He|He]; [by left|].
        right. exists r. split; [left|].
        rewrite Hheap, He, fmap_cons. by rewrite list_lookup_middle.
      * right. exists r'. split; [by right|done].
    + intros r' Hr'. apply elem_of_cons in Hr' as [->|Hr']; [|by apply Hall].
      destruct (set_add_member (heap w) old (stored_column tables r))
        as (e & He & Hval).
      exists e. split.
      * destruct Hpre as [k ->]. apply elem_of_app. by left.
      * rewrite Hh. by apply lookup_app_l_Some.
Qed.

(** The world after [aliased_column] has bound the alias to [None]. *)
Definition after_none (u : UUID) (alias : string) (w : World) : World :=
  set_registry
    (alter (set_aliased_columns alias PyNone) u (registry (ensure_scope u w)))
    (ensure_scope u w).

Lemma aliased_column_run_none node w value as_node alias_node alias u :
  children node = [value; as_node; alias_node] →
  get_identifier alias_node (_reserved_keywords (self w)) = Ok alias →
  nearest_boundary (meta_parent node) u →
  is_count_function value = true
  ∨ (is_tree value = true ∧ find_data "fq_column" value = []) →
  aliased_column get_identifier is_count_function fq_hash node w
  = (after_none u alias w, Ok tt).
Proof.
  intros Hcs Ha Hu Hcase. unfold aliased_column.
  run_with (by apply alias_scope_ok).
  rewrite Hcs. run_with reflexivity. cbn beta iota.
  run_with (apply identifier_ok; by rewrite ensure_scope_keywords).
  destruct (is_count_function value) eqn:Hcount; [done|].
  destruct Hcase as [?|[Htree Hempty]]; [done|].
  destruct value as [v|d i cs]; [done|].
  run_with reflexivity. rewrite Hempty.
  run_with reflexivity. done.
Qed.

(** A bare token that is not a count: [find_data] is looked up on a [str]. *)
Lemma aliased_column_run_token node w v as_node alias_node alias u :
  children node = [Token v; as_node; alias_node] →
  get_identifier alias_node (_reserved_keywords (self w)) = Ok alias →
  nearest_boundary (meta_parent node) u →
  is_count_function (Token v) = false →
  aliased_column get_identifier is_count_function fq_hash node w
  = (ensure_scope u w, Raise AttributeError).
Proof.
  intros Hcs Ha Hu Hcount. unfold aliased_column.
  run_with (by apply alias_scope_ok).
  rewrite Hcs. run_with reflexivity. cbn beta iota.
  run_with (apply identifier_ok; by rewrite ensure_scope_keywords).
  rewrite Hcount. reflexivity.
Qed.

Lemma aliased_column_run_set node w value as_node alias_node alias u refs :
  children node = [value; as_node; alias_node] →
  get_identifier alias_node (_reserved_keywords (self w)) = Ok alias →
  nearest_boundary (meta_parent node) u →
  is_count_function value = false →
  refs ≠ [] →
  Forall2 (fq_reference get_identifier (_reserved_keywords (self w)))
    (find_data "fq_column" value) refs →
  _aliased_columns (scope w u) !! alias ≠ Some PyNone →
  aliased_column get_identifier is_count_function fq_hash node w
  = (after_records u alias (ensure_scope u w) refs, Ok tt).
Proof.
  intros Hcs Ha Hu Hcount Hne Hrefs Hnone. unfold aliased_column.
  run_with (by apply alias_scope_ok).
  rewrite Hcs. run_with reflexivity. cbn beta iota.
  run_with (apply identifier_ok; by rewrite ensure_scope_keywords).
  rewrite Hcount.
  destruct value as [v|d i cs]; [by apply Forall2_nil_inv_l in Hrefs|].
  run_with reflexivity.
  run_with (apply for_each_record_run with (refs := refs);
            [done|apply ensure_scope_is_Some|by rewrite ensure_scope_scope
            |by rewrite ensure_scope_keywords]).
  destruct (find_data "fq_column" (Node d i cs)); [|done].
  by apply Forall2_nil_inv_l in Hrefs.
Qed.

Lemma scope_after_none u alias w :
  scope (after_none u alias w) u = set_aliased_columns alias PyNone (scope w u).
Proof. apply scope_alter_ensure. Qed.

(** *** C3: what [aliased_column] records *)

(** C3 (as amended).  For a column-alias node [<expr> AS <alias>] in the
    scope [u]: when the expression is a count, or is a subtree that holds no
    [fq_column] node, [aliased_column] returns normally and binds the alias
    to [None].  When the expression is not a count and holds [fq_column]
    references, and the alias is not already bound to [None], it returns
    normally and leaves the alias bound to a set, never to [None]; the set
    holds a column for every [fq_column] reference of the expression, it
    still holds its earlier members, and every other member is the column of
    a reference.  (An expression that is a bare token and not a count is
    outside both cases: see [aliased_column_run_token].) *)
Theorem aliased_column_records node w value as_node alias_node alias u :
  children node = [value; as_node; alias_node] →
  get_identifier alias_node (_reserved_keywords (self w)) = Ok alias →
  nearest_boundary (meta_parent node) u →
  (is_count_function value = true
   ∨ (is_tree value = true ∧ find_data "fq_column" value = []) →
   ∃ w', aliased_column get_identifier is_count_function fq_hash node w
         = (w', Ok tt)
     ∧ _aliased_columns (scope w' u) !! alias = Some PyNone)
  ∧ (∀ refs,
       is_count_function value = false →
       refs ≠ [] →
       Forall2 (fq_reference get_identifier (_reserved_keywords (self w)))
         (find_data "fq_column" value) refs →
       _aliased_columns (scope w u) !! alias ≠ Some PyNone →
       ∃ w' s',
         aliased_column get_identifier is_count_function fq_hash node w
         = (w', Ok tt)
         ∧ _aliased_columns (scope w' u) !! alias = Some (PySet s')
         ∧ (∀ r, r ∈ refs →
              ∃ e c, e ∈ s' ∧ heap w' !! entry_key e = Some c
                     ∧ column c = r.2
                     ∧ c = stored_column (_aliased_tables (scope w u)) r)
         ∧ members (_aliased_columns (scope w u) !! alias) `prefix_of` s'
         ∧ heap w `prefix_of` heap w'
         ∧ (∀ e, e ∈ s' →
              e ∈ members (_aliased_columns (scope w u) !! alias)
              ∨ ∃ r, r ∈ refs
                  ∧ heap w' !! entry_key e
                    = Some (stored_column (_aliased_tables (scope w u)) r))).
Proof.
  intros Hcs Ha Hu. split.
  - intros Hcase. exists (after_none u alias w). split.
    + by apply aliased_column_run_none with value as_node alias_node.
    + rewrite scope_after_none. simpl. apply lookup_insert_eq.
  - intros refs Hcount Hne Hrefs Hnone.
    pose proof (after_records_spec u alias refs (ensure_scope u w)) as Hspec.
    cbn zeta in Hspec. rewrite !ensure_scope_scope, ensure_scope_heap in Hspec.
    destruct Hspec as (_ & _ & _ & _ & _ & Hh & Hset & Hpre & Hnew & Hall).
    exists (after_records u alias (ensure_scope u w) refs).
    eexists. split; [|split; [by apply Hset|]].
    + by apply aliased_column_run_set with value as_node alias_node.
    + split; [|split; [done|split; [|done]]].
      * intros r Hr. destruct (Hall r Hr) as (e & He & Hval).
        by exists e, (stored_column (_aliased_tables (scope w u)) r).
      * rewrite Hh. by apply prefix_app_r.
Qed.

(** *** C7: how the table part is resolved *)

(** C7 (as amended).  When [aliased_column] records the references of a
    column alias, the table part [t] of each is looked up once in the
    [_aliased_tables] of the enclosing scope: the stored column has the table
    the alias [t] is bound to, or [t] itself when it is not bound.  The name
    found is not looked up again. *)
Theorem aliased_column_resolves_once
    node w value as_node alias_node alias u refs :
  children node = [value; as_node; alias_node] →
  get_identifier alias_node (_reserved_keywords (self w)) = Ok alias →
  nearest_boundary (meta_parent node) u →
  is_count_function value = false →
  refs ≠ [] →
  Forall2 (fq_reference get_identifier (_reserved_keywords (self w)))
    (find_data "fq_column" value) refs →
  _aliased_columns (scope w u) !! alias ≠ Some PyNone →
  ∃ w' s',
    aliased_column get_identifier is_count_function fq_hash node w = (w', Ok tt)
    ∧ _aliased_columns (scope w' u) !! alias = Some (PySet s')
    ∧ ∀ t c, (t, c) ∈ refs →
        ∃ e, e ∈ s'
          ∧ heap w' !! entry_key e
            = Some {| table := match _aliased_tables (scope w u) !! t with
                               | Some t' => t'
                               | None => t
                               end;
                      column := c |}.
Proof.
  intros Hcs Ha Hu Hcount Hne Hrefs Hnone.
  pose proof (after_records_spec u alias refs (ensure_scope u w)) as Hspec.
  cbn zeta in Hspec. rewrite !ensure_scope_scope in Hspec.
  destruct Hspec as (_ & _ & _ & _ & _ & _ & Hset & _ & _ & Hall).
  exists (after_records u alias (ensure_scope u w) refs).
  eexists. split; [|split; [by apply Hset|]].
  - by apply aliased_column_run_set with value as_node alias_node.
  - intros t c Hr. apply (Hall (t, c) Hr).
Qed.

End Loop.

(** ** When the order of a table alias and a column alias is immaterial *)

Lemma backfill_stored_column (tables : gmap string string) a table_name r :
  tables !! a = None →
  (r.1 ≠ a → table (stored_column tables r) ≠ a) →
  backfill_column a table_name (stored_column tables r)
  = stored_column (<[a := table_name]> tables) r.
Proof.
  intros Ha Hr. destruct r as [t c].
  unfold stored_column, backfill_column in *. simpl in *.
  destruct (decide (t = a)) as [->|Hne].
  - rewrite Ha, lookup_insert_eq. simpl. by rewrite String.eqb_refl.
  - rewrite lookup_insert_ne by done. specialize (Hr Hne).
    apply string_eqb_false in Hr. by rewrite Hr.
Qed.

Lemma members_lookup (cols : gmap string ColumnsValue) (k : string) e :
  e ∈ members (cols !! k) → cols !! k = Some (PySet (members (cols !! k))).
Proof.
  destruct (cols !! k) as [[|s]|]; simpl; try done.
  all: intros He; by apply elem_of_nil in He.
Qed.

Section OrderOfAliases.

Context (get_identifier : Tree → gset string → result string).
Context (is_count_function : Tree → bool).
Context (fq_hash : FqColumn → Z).

Lemma after_records_keywords u alias w refs :
  _reserved_keywords (self (after_records fq_hash u alias w refs))
  = _reserved_keywords (self w).
Proof.
  unfold after_records. revert w.
  induction refs as [|r refs IH]; intros w; [done|].
  cbn [foldl]. by rewrite IH.
Qed.

(** The table alias node [T] is [<table_name> AS <a>], the column alias node
    [C] is [<value> AS <s>] with the references [refs]; both are in the
    scope [u]. *)
Context (T C : VNode) (w : World) (u : UUID).
Context (table_node as_T alias_node : Tree) (table_name a : string).
Context (value as_C name_node : Tree) (s : string) (refs : list (string * string)).

Hypothesis T_children : children T = [table_node; as_T; alias_node].
Hypothesis T_table :
  get_identifier table_node (_reserved_keywords (self w)) = Ok table_name.
Hypothesis T_alias :
  get_identifier alias_node (_reserved_keywords (self w)) = Ok a.
Hypothesis T_scope : nearest_boundary (meta_parent T) u.
Hypothesis C_children : children C = [value; as_C; name_node].
Hypothesis C_alias :
  get_identifier name_node (_reserved_keywords (self w)) = Ok s.
Hypothesis C_scope : nearest_boundary (meta_parent C) u.
Hypothesis C_not_count : is_count_function value = false.
Hypothesis C_refs :
  Forall2 (fq_reference get_identifier (_reserved_keywords (self w)))
    (find_data "fq_column" value) refs.
Hypothesis C_some_ref : refs ≠ [].
Hypothesis C_not_none : _aliased_columns (scope w u) !! s ≠ Some PyNone.

(** The world after [T] then [C], and after [C] then [T]. *)
Definition table_then_column : World :=
  after_records fq_hash u s (after_aliased_table u a table_name w) refs.

Definition column_then_table : World :=
  after_aliased_table u a table_name
    (after_records fq_hash u s (ensure_scope u w) refs).

Lemma run_table_then_column :
  aliased_column get_identifier is_count_function fq_hash C
    (aliased_table get_identifier T w).1
  = (table_then_column, Ok tt).
Proof.
  rewrite (aliased_table_run get_identifier T w _ _ _ _ _ u
             T_children T_table T_alias T_scope). cbn [fst].
  erewrite aliased_column_run_set with (refs := refs) (u := u); try done.
  - unfold table_then_column. f_equal. f_equal.
    destruct (registry_after_aliased_table u a table_name w) as [q Hq].
    by apply ensure_scope_present with q.
  - by rewrite keywords_after_aliased_table.
  - by rewrite keywords_after_aliased_table.
  - rewrite scope_after_aliased_table, decide_True by done. done.
Qed.

Lemma run_column_then_table :
  aliased_table get_identifier T
    (aliased_column get_identifier is_count_function fq_hash C w).1
  = (column_then_table, Ok tt).
Proof.
  erewrite aliased_column_run_set with (refs := refs) (u := u); try done.
  cbn [fst]. apply aliased_table_run with table_node as_T alias_node; try done.
  - by rewrite after_records_keywords, ensure_scope_keywords.
  - by rewrite after_records_keywords, ensure_scope_keywords.
Qed.

(** The world is well formed, the alias [a] is not bound yet, and no other
    table part of the references resolves to the name [a]. *)
Hypothesis w_well_formed : well_formed w.
Hypothesis a_not_bound : _aliased_tables (scope w u) !! a = None.
Hypothesis a_not_resolved_to :
  ∀ r, r ∈ refs → r.1 ≠ a →
       table (stored_column (_aliased_tables (scope w u)) r) ≠ a.

Lemma scope_column_first :
  _aliased_tables (scope (after_records fq_hash u s (ensure_scope u w) refs) u)
  = _aliased_tables (scope w u)
  ∧ _subquery_aliases (scope (after_records fq_hash u s (ensure_scope u w) refs) u)
    = _subquery_aliases (scope w u)
  ∧ (∀ k, k ≠ s →
       _aliased_columns (scope (after_records fq_hash u s (ensure_scope u w) refs) u) !! k
       = _aliased_columns (scope w u) !! k)
  ∧ heap (after_records fq_hash u s (ensure_scope u w) refs)
    = heap w ++ (stored_column (_aliased_tables (scope w u)) <$> refs).
Proof.
  pose proof (after_records_spec fq_hash u s refs (ensure_scope u w)) as H.
  cbn zeta in H. rewrite !ensure_scope_scope, ensure_scope_heap in H.
  destruct H as (_ & Ht & Hq & _ & Hk & Hh & _). done.
Qed.

Lemma scope_table_first :
  _aliased_tables (scope table_then_column u)
  = <[a := table_name]> (_aliased_tables (scope w u))
  ∧ _subquery_aliases (scope table_then_column u) = _subquery_aliases (scope w u)
  ∧ (∀ k, k ≠ s →
       _aliased_columns (scope table_then_column u) !! k
       = _aliased_columns (scope w u) !! k)
  ∧ heap table_then_column
    = heap (after_aliased_table u a table_name w)
      ++ (stored_column (<[a := table_name]> (_aliased_tables (scope w u))) <$> refs).
Proof.
  pose proof (after_records_spec fq_hash u s refs
                (after_aliased_table u a table_name w)) as H.
  cbn zeta in H.
  rewrite !scope_after_aliased_table, !(decide_True (P := u = u)) in H by done.
  destruct H as (_ & Ht & Hq & _ & Hk & Hh & _). done.
Qed.

Lemma old_object_table_first x :
  recorded (scope w u) x →
  heap table_then_column !! x = backfill_column a table_name <$> heap w !! x.
Proof.
  intros Hx. destruct scope_table_first as (_ & _ & _ & ->).
  destruct w_well_formed as [Hb _]. apply Hb in Hx as Hlt.
  rewrite lookup_app_l by (by rewrite length_heap_after_aliased_table).
  rewrite heap_after_aliased_table, decide_True; [done|].
  by apply recorded_addresses.
Qed.

Lemma object_column_first x :
  recorded (scope (after_records fq_hash u s (ensure_scope u w) refs) u) x →
  heap column_then_table !! x
  = backfill_column a table_name
      <$> heap (after_records fq_hash u s (ensure_scope u w) refs) !! x.
Proof.
  intros Hx. unfold column_then_table.
  rewrite heap_after_aliased_table, decide_True; [done|].
  by apply recorded_addresses.
Qed.

Lemma old_object_column_first x :
  recorded (scope w u) x →
  heap (after_records fq_hash u s (ensure_scope u w) refs) !! x = heap w !! x.
Proof.
  intros Hx. destruct scope_column_first as (_ & _ & _ & ->).
  destruct w_well_formed as [Hb _]. apply Hb in Hx. by rewrite lookup_app_l.
Qed.

(** When the alias of [T] is free in this sense, visiting [T] before [C] and
    [C] before [T] both end normally, with the same [_aliased_tables] and
    [_subquery_aliases], the same columns seen for every other alias, and for
    the alias [s] sets that hold the same columns. *)
Lemma table_alias_order_irrelevant_when_fresh :
  aliased_column get_identifier is_count_function fq_hash C
    (aliased_table get_identifier T w).1 = (table_then_column, Ok tt)
  ∧ aliased_table get_identifier T
      (aliased_column get_identifier is_count_function fq_hash C w).1
    = (column_then_table, Ok tt)
  ∧ _aliased_tables (scope table_then_column u)
    = _aliased_tables (scope column_then_table u)
  ∧ _subquery_aliases (scope table_then_column u)
    = _subquery_aliases (scope column_then_table u)
  ∧ (∀ k, k ≠ s →
       columns_view table_then_column u !! k
       = columns_view column_then_table u !! k)
  ∧ ∃ l1 l2,
      columns_view table_then_column u !! s = Some (Some l1)
      ∧ columns_view column_then_table u !! s = Some (Some l2)
      ∧ ∀ c, c ∈ l1 ↔ c ∈ l2.
Proof.
  split; [apply run_table_then_column|]. split; [apply run_column_then_table|].
  destruct scope_table_first as (HtT & HqT & HkT & HhT).
  destruct scope_column_first as (HtC & HqC & HkC & HhC).
  assert (scope column_then_table u
          = set_aliased_table a table_name
              (scope (after_records fq_hash u s (ensure_scope u w) refs) u))
    as HsCT.
  { unfold column_then_table.
    by rewrite scope_after_aliased_table, decide_True. }
  split; [by rewrite HsCT, HtT; simpl; rewrite HtC|].
  split; [by rewrite HsCT, HqT; simpl; rewrite HqC|].
  split.
  - intros k Hk. unfold columns_view. rewrite !lookup_fmap.
    rewrite HsCT. cbn [set_aliased_table _aliased_columns].
    rewrite (HkT k Hk), (HkC k Hk).
    destruct (_aliased_columns (scope w u) !! k) as [[|sk]|] eqn:Hsk; try done.
    simpl. do 2 f_equal. apply list_fmap_ext. intros i e He.
    assert (recorded (scope w u) (entry_key e)) as Hrec.
    { exists k, sk, e. split; [done|]. split; [|done].
      by apply list_elem_of_lookup_2 with i. }
    rewrite old_object_table_first by done.
    rewrite object_column_first, old_object_column_first; try done.
    exists k, sk, e. rewrite (HkC k Hk). split; [done|]. split; [|done].
    by apply list_elem_of_lookup_2 with i.
  - pose proof (after_records_spec fq_hash u s refs
                  (after_aliased_table u a table_name w)) as HT.
    pose proof (after_records_spec fq_hash u s refs (ensure_scope u w)) as HC.
    cbn zeta in HT, HC.
    rewrite !scope_after_aliased_table, !(decide_True (P := u = u)) in HT by done.
    rewrite !ensure_scope_scope in HC.
    cbn [set_aliased_table _aliased_columns _aliased_tables] in HT.
    destruct HT as (_ & _ & _ & _ & _ & _ & HsetT & HpreT & HnewT & HallT).
    destruct HC as (_ & _ & _ & _ & _ & _ & HsetC & HpreC & HnewC & HallC).
    fold table_then_column in HsetT, HpreT, HnewT, HallT.
    set (wC := after_records fq_hash u s (ensure_scope u w) refs) in *.
    set (old := members (_aliased_columns (scope w u) !! s)) in *.
    set (sT := members (_aliased_columns (scope table_then_column u) !! s)) in *.
    set (sC := members (_aliased_columns (scope wC u) !! s)) in *.
    set (tables := _aliased_tables (scope w u)) in *.
    specialize (HsetT C_some_ref). specialize (HsetC C_some_ref).
    exists ((λ e, heap table_then_column !! entry_key e) <$> sT),
           ((λ e, heap column_then_table !! entry_key e) <$> sC).
    split; [unfold columns_view; by rewrite lookup_fmap, HsetT|].
    split.
    { unfold columns_view. rewrite lookup_fmap, HsCT.
      cbn [set_aliased_table _aliased_columns]. by rewrite HsetC. }
    assert (∀ e, e ∈ old → recorded (scope w u) (entry_key e)) as Hold.
    { intros e He. exists s, old, e. split; [|done].
      by apply members_lookup with e. }
    assert (∀ e, e ∈ sC → recorded (scope wC u) (entry_key e)) as HrecC.
    { intros e He. by exists s, sC, e. }
    assert (∀ r, r ∈ refs →
              backfill_column a table_name (stored_column tables r)
              = stored_column (<[a := table_name]> tables) r) as Hfresh.
    { intros r Hr. apply backfill_stored_column; [done|].
      by apply a_not_resolved_to. }
    intros c. rewrite !list_elem_of_fmap. split.
    + intros (e & -> & He). apply HnewT in He as [He|(r & Hr & He)].
      * exists e. split; [|destruct HpreC as [k ->]; apply elem_of_app; by left].
        rewrite old_object_table_first by (by apply Hold).
        rewrite object_column_first.
        -- by rewrite old_object_column_first by (by apply Hold).
        -- apply HrecC. destruct HpreC as [k ->]. apply elem_of_app. by left.
      * destruct (HallC r Hr) as (e' & He' & Hval').
        exists e'. split; [|done].
        rewrite He, object_column_first by (by apply HrecC).
        fold wC. rewrite Hval'. simpl. by rewrite Hfresh.
    + intros (e & -> & He). rewrite object_column_first by (by apply HrecC).
      fold wC. apply HnewC in He as [He|(r & Hr & He)].
      * exists e. split; [|destruct HpreT as [k ->]; apply elem_of_app; by left].
        unfold wC. rewrite old_object_column_first by (by apply Hold).
        by rewrite old_object_table_first by (by apply Hold).
      * destruct (HallT r Hr) as (e' & He' & Hval').
        exists e'. split; [|done].
        rewrite He, Hval'. simpl. by rewrite Hfresh.
Qed.

End OrderOfAliases.

(** ** Concrete trees for the examples *)

(** An identifier reader for the examples: the text of a token, or of a node
    that wraps one token. *)
Definition leaf_identifier (t : Tree) (reserved_keywords : gset string) : result string :=
  match t with
  | Token v => Ok v
  | Node _ _ [Token v] => Ok v
  | _ => Raise (IdentifierError "not an identifier")
  end.

(** A count test for the examples: the node is tagged [count]. *)
Definition tagged_count (t : Tree) : bool :=
  match t with
  | Node d _ _ => String.eqb d "count"
  | Token _ => false
  end.

(** A hash for the examples. *)
Definition length_hash (c : FqColumn) : Z :=
  Z.of_nat (String.length (table c)) * 31 + Z.of_nat (String.length (column c)).

Definition run (nodes : list VNode) : World * result unit :=
  visit_all leaf_identifier tagged_count length_hash nodes (new_World ∅).

(** Parent chains: a node of the select list or of the from clause of the
    query [u]; the same inside a subquery [u] of the from clause of [up]. *)
Definition in_query (u : UUID) : Up :=
  Under "select" 0%N (Under "full_query" u Root).

Definition in_subquery (u up : UUID) : Up :=
  Under "select" 0%N (Under "full_query" u (Under "derived_table" 0%N (in_query up))).

Definition query_node (u : UUID) (p : Up) : VNode :=
  {| data := "full_query"; meta_id := u; meta_parent := p; children := [] |}.

(** [<table> AS <alias>] *)
Definition table_alias_node (table_name alias : string) (p : Up) : VNode :=
  {| data := "aliased_table"; meta_id := 0%N; meta_parent := p;
     children := [Token table_name; Token "AS"; Token alias] |}.

(** [<expr> AS <alias>] *)
Definition column_alias_node (expr : Tree) (alias : string) (p : Up) : VNode :=
  {| data := "aliased_column"; meta_id := 0%N; meta_parent := p;
     children := [expr; Token "AS"; Token alias] |}.

(** [(SELECT ...) AS <alias>] for the subquery with scope [u]. *)
Definition subquery_alias_node (u : UUID) (alias : string) (p : Up) : VNode :=
  {| data := "derived_table"; meta_id := 0%N; meta_parent := p;
     children := [Node "full_query" u []; Token "AS"; Token alias] |}.

Definition selected_table_node (table_name : string) (p : Up) : VNode :=
  {| data := "selected_table"; meta_id := 0%N; meta_parent := p;
     children := [Token table_name] |}.

(** [t.c], [e1 + e2], [COUNT( * )] *)
Definition fq (t c : string) : Tree := Node "fq_column" 0%N [Token t; Token c].
Definition plus (e1 e2 : Tree) : Tree := Node "add" 0%N [e1; Token "+"; e2].
Definition count_star : Tree := Node "count" 0%N [Token "*"].

(** *** C1 on [rental AS r] after [r.amt AS amt] *)

(** A world in which scope [1] has recorded [r.amt AS amt] and
    [film.title AS t]. *)
Definition world_before_alias : World :=
  (run [ query_node 1 Root;
         column_alias_node (fq "r" "amt") "amt" (in_query 1);
         column_alias_node (fq "film" "title") "t" (in_query 1) ]).1.

Lemma aliased_table_backfills_witness :
  ∃ w', aliased_table leaf_identifier (table_alias_node "rental" "r" (in_query 1))
          world_before_alias = (w', Ok tt)
    ∧ _aliased_tables (scope w' 1%N) !! "r" = Some "rental"
    ∧ _aliased_columns (scope w' 1%N) = _aliased_columns (scope world_before_alias 1%N)
    ∧ length (heap w') = length (heap world_before_alias)
    ∧ ∀ a c, heap world_before_alias !! a = Some c →
        (recorded (scope world_before_alias 1%N) a → table c = "r" →
           heap w' !! a = Some {| table := "rental"; column := column c |})
        ∧ (recorded (scope world_before_alias 1%N) a → table c ≠ "r" →
             heap w' !! a = Some c)
        ∧ (¬ recorded (scope world_before_alias 1%N) a → heap w' !! a = Some c).
Proof.
  apply (aliased_table_backfills leaf_identifier
           (table_alias_node "rental" "r" (in_query 1)) world_before_alias
           (Token "rental") (Token "AS") (Token "r") "rental" "r" 1%N).
  - reflexivity.
  - reflexivity.
  - reflexivity.
  - apply nearest_further; [discriminate|]. apply nearest_here.
Defined.

(** The same run, evaluated: the column recorded as [r.amt] reads
    [rental.amt] afterwards, through the reference the set already held. *)
Example backfill_rental_as_r :
  columns_view world_before_alias 1%N !! "amt"
  = Some (Some [Some {| table := "r"; column := "amt" |}])
  ∧ columns_view
      (aliased_table leaf_identifier (table_alias_node "rental" "r" (in_query 1))
         world_before_alias).1 1%N !! "amt"
    = Some (Some [Some {| table := "rental"; column := "amt" |}])
  ∧ columns_view
      (aliased_table leaf_identifier (table_alias_node "rental" "r" (in_query 1))
         world_before_alias).1 1%N !! "t"
    = Some (Some [Some {| table := "film"; column := "title" |}]).
Proof. vm_compute. done. Qed.

(** *** C3 and C6 on an alias that is already [None] *)

(** The world after [SELECT COUNT( * ) AS x]. *)
Definition world_with_none : World :=
  (run [ query_node 1 Root; column_alias_node count_star "x" (in_query 1) ]).1.

(** C3, counterexample.  After [COUNT( * ) AS x], the column alias
    [t.c AS x] is neither a count nor without a column reference, yet
    [aliased_column] adds no column for it: it raises [AttributeError], and
    [x] is still bound to [None]. *)
Lemma aliased_column_on_none_raises :
  tagged_count (fq "t" "c") = false
  ∧ find_data "fq_column" (fq "t" "c") = [fq "t" "c"]
  ∧ _aliased_columns (scope world_with_none 1%N) !! "x" = Some PyNone
  ∧ (aliased_column leaf_identifier tagged_count length_hash
       (column_alias_node (fq "t" "c") "x" (in_query 1)) world_with_none).2
    = Raise AttributeError
  ∧ _aliased_columns
      (scope (aliased_column leaf_identifier tagged_count length_hash
                (column_alias_node (fq "t" "c") "x" (in_query 1))
                world_with_none).1 1%N) !! "x"
    = Some PyNone
  ∧ heap (aliased_column leaf_identifier tagged_count length_hash
            (column_alias_node (fq "t" "c") "x" (in_query 1)) world_with_none).1
    = [].
Proof. vm_compute. done. Qed.

Lemma aliased_column_records_witness :
  (∃ w',
     aliased_column leaf_identifier tagged_count length_hash
       (column_alias_node (plus (Token "1") (Token "1")) "name" (in_query 1))
       (new_World ∅) = (w', Ok tt)
     ∧ _aliased_columns (scope w' 1%N) !! "name" = Some PyNone)
  ∧ ∃ w' s',
      aliased_column leaf_identifier tagged_count length_hash
        (column_alias_node (plus (fq "a" "x") (fq "b" "y")) "total" (in_query 1))
        (new_World ∅) = (w', Ok tt)
      ∧ _aliased_columns (scope w' 1%N) !! "total" = Some (PySet s')
      ∧ (∀ r, r ∈ [("a", "x"); ("b", "y")] →
           ∃ e c, e ∈ s' ∧ heap w' !! entry_key e = Some c ∧ column c = r.2
                  ∧ c = stored_column (_aliased_tables (scope (new_World ∅) 1%N)) r).
Proof.
  split.
  - destruct (aliased_column_records leaf_identifier tagged_count length_hash
                (column_alias_node (plus (Token "1") (Token "1")) "name" (in_query 1))
                (new_World ∅)
                (plus (Token "1") (Token "1")) (Token "AS") (Token "name")
                "name" 1%N) as [Hnone _].
    + reflexivity.
    + reflexivity.
    + apply nearest_further; [discriminate|]. apply nearest_here.
    + apply Hnone. right. split; reflexivity.
  - destruct (aliased_column_records leaf_identifier tagged_count length_hash
                (column_alias_node (plus (fq "a" "x") (fq "b" "y")) "total" (in_query 1))
                (new_World ∅)
                (plus (fq "a" "x") (fq "b" "y")) (Token "AS") (Token "total")
                "total" 1%N) as [_ Hset].
    + reflexivity.
    + reflexivity.
    + apply nearest_further; [discriminate|]. apply nearest_here.
    + destruct (Hset [("a", "x"); ("b", "y")]) as (w' & s' & Hrun & Hs & Hall & _).
      * reflexivity.
      * discriminate.
      * repeat constructor.
        -- by exists "fq_column", 0%N, (Token "a"), (Token "x").
        -- by exists "fq_column", 0%N, (Token "b"), (Token "y").
      * discriminate.
      * by exists w', s'.
Defined.

Lemma none_is_permanent_witness :
  ∃ q', registry
          (aliased_column leaf_identifier tagged_count length_hash
             (column_alias_node (fq "t" "c") "x" (in_query 1))
             world_with_none).1 !! 1%N = Some q'
        ∧ _aliased_columns q' !! "x" = Some PyNone.
Proof.
  destruct (none_is_permanent leaf_identifier tagged_count length_hash
              world_with_none 1%N (scope world_with_none 1%N) "x")
    as [Hcolumn _].
  - reflexivity.
  - reflexivity.
  - apply Hcolumn.
Defined.

(** *** C5 on a subquery *)

(** The world after the parent query [1] has recorded [rental AS r] and
    [r.amt AS amt], and its subquery [2] has been entered. *)
Definition world_with_subquery : World :=
  (run [ query_node 1 Root;
         column_alias_node (fq "r" "amt") "amt" (in_query 1);
         subquery_alias_node 2 "sub" (in_query 1);
         query_node 2 (Under "derived_table" 0%N (in_query 1)) ]).1.

Lemma not_nearest_parent : ¬ nearest_boundary (in_subquery 2 1) 1%N.
Proof.
  intros H. inversion H as [|d i p u Hd Hp]; subst.
  inversion Hp; subst; done.
Defined.

Lemma aliases_stay_in_their_scope_witness :
  registry (aliased_table leaf_identifier
              (table_alias_node "film" "r" (in_subquery 2 1))
              world_with_subquery).1 !! 1%N
  = registry world_with_subquery !! 1%N.
Proof.
  destruct (aliases_stay_in_their_scope leaf_identifier tagged_count length_hash
              (table_alias_node "film" "r" (in_subquery 2 1))
              world_with_subquery 1%N not_nearest_parent)
    as [(Htable & _) _].
  apply Htable.
Defined.

(** The same run, evaluated: [film AS r] inside the subquery does not touch
    the parent's [r.amt], and the parent does not resolve [r] through it. *)
Example subquery_alias_is_local :
  columns_view
    (aliased_table leaf_identifier (table_alias_node "film" "r" (in_subquery 2 1))
       world_with_subquery).1 1%N !! "amt"
  = Some (Some [Some {| table := "r"; column := "amt" |}])
  ∧ (_resolve_table (column_alias_node (fq "r" "x") "x" (in_query 1)) "r"
       (aliased_table leaf_identifier (table_alias_node "film" "r" (in_subquery 2 1))
          world_with_subquery).1).2
    = Ok "r"
  ∧ (_resolve_table (column_alias_node (fq "r" "x") "x" (in_subquery 2 1)) "r"
       (aliased_table leaf_identifier (table_alias_node "film" "r" (in_subquery 2 1))
          world_with_subquery).1).2
    = Ok "film".
Proof. vm_compute. done. Qed.

(** *** C7 on an alias of an alias *)

(** The world after [c AS b] and [b AS a]. *)
Definition world_with_alias_chain : World :=
  (run [ query_node 1 Root;
         table_alias_node "c" "b" (in_query 1);
         table_alias_node "b" "a" (in_query 1) ]).1.

(** C7, counterexample.  With [a] bound to [b] and [b] bound to [c], the
    column alias [a.x AS s] stores [b.x]: the chain is followed one link, not
    to its end [c]. *)
Lemma alias_chain_followed_one_link :
  _aliased_tables (scope world_with_alias_chain 1%N) !! "a" = Some "b"
  ∧ _aliased_tables (scope world_with_alias_chain 1%N) !! "b" = Some "c"
  ∧ (aliased_column leaf_identifier tagged_count length_hash
       (column_alias_node (fq "a" "x") "s" (in_query 1))
       world_with_alias_chain).2 = Ok tt
  ∧ columns_view
      (aliased_column leaf_identifier tagged_count length_hash
         (column_alias_node (fq "a" "x") "s" (in_query 1))
         world_with_alias_chain).1 1%N !! "s"
    = Some (Some [Some {| table := "b"; column := "x" |}])
  ∧ {| table := "b"; column := "x" |} ≠ {| table := "c"; column := "x" |}.
Proof. vm_compute. repeat split; done. Qed.

Lemma aliased_column_resolves_once_witness :
  ∃ w' s',
    aliased_column leaf_identifier tagged_count length_hash
      (column_alias_node (fq "a" "x") "s" (in_query 1)) world_with_alias_chain
    = (w', Ok tt)
    ∧ _aliased_columns (scope w' 1%N) !! "s" = Some (PySet s')
    ∧ ∀ t c, (t, c) ∈ [("a", "x")] →
        ∃ e, e ∈ s'
          ∧ heap w' !! entry_key e
            = Some {| table := match _aliased_tables (scope world_with_alias_chain 1%N) !! t with
                               | Some t' => t'
                               | None => t
                               end;
                      column := c |}.
Proof.
  apply (aliased_column_resolves_once leaf_identifier tagged_count length_hash
           (column_alias_node (fq "a" "x") "s" (in_query 1)) world_with_alias_chain
           (fq "a" "x") (Token "AS") (Token "s") "s" 1%N [("a", "x")]).
  - reflexivity.
  - reflexivity.
  - apply nearest_further; [discriminate|]. apply nearest_here.
  - reflexivity.
  - discriminate.
  - repeat constructor. by exists "fq_column", 0%N, (Token "a"), (Token "x").
  - vm_compute. discriminate.
Defined.

(** *** C2 on an alias that shadows a table name *)

(** [SELECT q.x + a.y AS s FROM a AS q JOIN tbl AS a]: the scope with
    [a AS q] visited, then [tbl AS a] and the column alias in either
    order. *)
Definition shadowing_T : VNode := table_alias_node "tbl" "a" (in_query 1).
Definition shadowing_C : VNode :=
  column_alias_node (plus (fq "q" "x") (fq "a" "y")) "s" (in_query 1).
Definition shadowing_table_first : World * result unit :=
  run [ query_node 1 Root; table_alias_node "a" "q" (in_query 1);
        shadowing_T; shadowing_C ].
Definition shadowing_column_first : World * result unit :=
  run [ query_node 1 Root; table_alias_node "a" "q" (in_query 1);
        shadowing_C; shadowing_T ].

(** C2, failing input.  Both orders end normally with the same
    [_aliased_tables], but the columns of the alias [s] differ: visiting the
    table alias first gives [a.x] and [tbl.y], visiting the column alias
    first gives [tbl.x] and [tbl.y], because the backfill rewrites the [a]
    that [q] had been resolved to. *)
Theorem table_alias_order_matters :
  shadowing_table_first.2 = Ok tt
  ∧ shadowing_column_first.2 = Ok tt
  ∧ _aliased_tables (scope shadowing_table_first.1 1%N)
    = _aliased_tables (scope shadowing_column_first.1 1%N)
  ∧ columns_view shadowing_table_first.1 1%N !! "s"
    = Some (Some [ Some {| table := "a"; column := "x" |};
                   Some {| table := "tbl"; column := "y" |} ])
  ∧ columns_view shadowing_column_first.1 1%N !! "s"
    = Some (Some [ Some {| table := "tbl"; column := "x" |};
                   Some {| table := "tbl"; column := "y" |} ]).
Proof. vm_compute. done. Qed.

(** On [rental AS r] and [r.amt + film.len AS total], where the alias [r] is
    free, the two orders agree. *)
Example rental_order_irrelevant :
  ∃ l1 l2,
    columns_view
      (table_then_column length_hash (run [query_node 1 Root]).1 1%N
         "rental" "r" "total" [("r", "amt"); ("film", "len")]) 1%N !! "total"
    = Some (Some l1)
    ∧ columns_view
        (column_then_table length_hash (run [query_node 1 Root]).1 1%N
           "rental" "r" "total" [("r", "amt"); ("film", "len")]) 1%N !! "total"
      = Some (Some l2)
    ∧ ∀ c, c ∈ l1 ↔ c ∈ l2.
Proof.
  apply (table_alias_order_irrelevant_when_fresh
           leaf_identifier tagged_count length_hash
           (table_alias_node "rental" "r" (in_query 1))
           (column_alias_node (plus (fq "r" "amt") (fq "film" "len")) "total"
              (in_query 1))
           (run [query_node 1 Root]).1 1%N
           (Token "rental") (Token "AS") (Token "r") "rental" "r"
           (plus (fq "r" "amt") (fq "film" "len")) (Token "AS") (Token "total")
           "total" [("r", "amt"); ("film", "len")]).
  - reflexivity.
  - reflexivity.
  - reflexivity.
  - apply nearest_further; [discriminate|]. apply nearest_here.
  - reflexivity.
  - reflexivity.
  - apply nearest_further; [discriminate|]. apply nearest_here.
  - reflexivity.
  - repeat constructor.
    + by exists "fq_column", 0%N, (Token "r"), (Token "amt").
    + by exists "fq_column", 0%N, (Token "film"), (Token "len").
  - discriminate.
  - vm_compute. discriminate.
  - apply well_formed_reachable.
  - reflexivity.
  - intros r Hr Hne.
    apply elem_of_cons in Hr as [->|Hr]; [done|].
    apply elem_of_cons in Hr as [->|Hr]; [vm_compute; discriminate|].
    by apply elem_of_nil in Hr.
Defined.

(** *** C8 on a query with one table *)

(** C8, failing input.  After [selected_table] for the single table [t1] of
    the query [1], the scope of the query has no [_selected_table]: the name
    is an attribute of the collector.  With a subquery [2] whose single table
    is [t2], neither scope has a [_selected_table], and the attribute of the
    collector holds [t2], the name read last. *)
Theorem selected_table_lands_on_collector :
  (run [ query_node 1 Root; selected_table_node "t1" (in_query 1) ]).2 = Ok tt
  ∧ _selected_table
      (scope (run [ query_node 1 Root; selected_table_node "t1" (in_query 1) ]).1 1%N)
    = None
  ∧ self_selected_table
      (self (run [ query_node 1 Root; selected_table_node "t1" (in_query 1) ]).1)
    = Some "t1"
  ∧ _selected_table
      (scope (run [ query_node 1 Root; selected_table_node "t1" (in_query 1);
                    query_node 2 (Under "derived_table" 0%N (in_query 1));
                    selected_table_node "t2" (in_subquery 2 1) ]).1 1%N)
    = None
  ∧ _selected_table
      (scope (run [ query_node 1 Root; selected_table_node "t1" (in_query 1);
                    query_node 2 (Under "derived_table" 0%N (in_query 1));
                    selected_table_node "t2" (in_subquery 2 1) ]).1 2%N)
    = None
  ∧ self_selected_table
      (self (run [ query_node 1 Root; selected_table_node "t1" (in_query 1);
                   query_node 2 (Under "derived_table" 0%N (in_query 1));
                   selected_table_node "t2" (in_subquery 2 1) ]).1)
    = Some "t2".
Proof. vm_compute. done. Qed.

(** ** The composition of constraint validators *)

Module Orchestrator.

(** What a query touches, once its identifiers are resolved. *)
Inductive Element :=
| TableRef (t : string)
| ConditionColumn (c : FqColumn)
| JoinCondition (l r : FqColumn).

(** Modelled from the spec: the constraint validator is an interface of the
    host application, and the base class that runs the validators
    ([heimdallm.bifrosts.sql.bifrost.Bifrost]) is not among the sources; a
    validator is a record of pure predicates. *)
Record Validator := {
  tableAllowed : string → bool;
  conditionColumnAllowed : FqColumn → bool;
  joinAllowed : FqColumn → FqColumn → bool
}.

Inductive Violation :=
| IllegalTable (t : string)
| IllegalConditionColumn (c : FqColumn)
| IllegalJoin (l r : FqColumn).

Inductive Outcome :=
| Accepted
| Rejected (violations : list Violation).

Definition accepts (v : Validator) (e : Element) : bool :=
  match e with
  | TableRef t => tableAllowed v t
  | ConditionColumn c => conditionColumnAllowed v c
  | JoinCondition l r => joinAllowed v l r
  end.

Definition violation_of (e : Element) : Violation :=
  match e with
  | TableRef t => IllegalTable t
  | ConditionColumn c => IllegalConditionColumn c
  | JoinCondition l r => IllegalJoin l r
  end.

(** Modelled from the spec: one validator walks the elements of the query and
    stops at the first one it rejects. *)
Fixpoint validate (v : Validator) (touched : list Element) : option Violation :=
  match touched with
  | [] => None
  | e :: touched' =>
      if accepts v e then validate v touched' else Some (violation_of e)
  end.

(** Modelled from the spec: the validators are tried in order; the query is
    accepted as soon as one of them finds no violation, and rejected when
    each of them has found one. *)
Fixpoint evaluate (validators : list Validator) (touched : list Element) : Outcome :=
  match validators with
  | [] => Rejected []
  | v :: validators' =>
      match validate v touched with
      | None => Accepted
      | Some violation =>
          match evaluate validators' touched with
          | Accepted => Accepted
          | Rejected violations => Rejected (violation :: violations)
          end
      end
  end.

Lemma validate_None v touched :
  validate v touched = None ↔ ∀ e, e ∈ touched → accepts v e = true.
Proof.
  induction touched as [|e touched IH]; simpl.
  - split; [|done]. intros _ e He. by apply elem_of_nil in He.
  - destruct (accepts v e) eqn:He.
    + rewrite IH. split.
      * intros H e' He'. apply elem_of_cons in He' as [->|He']; [done|by apply H].
      * intros H e' He'. apply H. by right.
    + split; [done|]. intros H. rewrite H in He; [done|by left].
Qed.

Lemma evaluate_Accepted validators touched :
  evaluate validators touched = Accepted
  ↔ ∃ v, v ∈ validators ∧ ∀ e, e ∈ touched → accepts v e = true.
Proof.
  induction validators as [|v validators IH]; simpl.
  - split; [done|]. intros (v & Hv & _). by apply elem_of_nil in Hv.
  - destruct (validate v touched) as [violation|] eqn:Hv.
    + destruct (evaluate validators touched) eqn:Hrest.
      * split; [|done]. intros _.
        destruct IH as [IH _]. destruct (IH eq_refl) as (v' & Hin & Hall).
        exists v'. split; [by right|done].
      * split; [done|]. intros (v' & Hin & Hall).
        apply elem_of_cons in Hin as [->|Hin].
        -- apply validate_None in Hall. by rewrite Hall in Hv.
        -- destruct IH as [_ IH]. discriminate IH. by exists v'.
    + split; [|done]. intros _. exists v. split; [by left|].
      by apply validate_None.
Qed.

(** C9.  With a non-empty list of validators, the query is accepted exactly
    when one of the validators accepts every element the query touches; so a
    query that some validators reject is accepted when another validator
    accepts all of it. *)
Theorem any_validator_suffices validators touched :
  validators ≠ [] →
  (evaluate validators touched = Accepted
   ↔ ∃ v, v ∈ validators ∧ ∀ e, e ∈ touched → accepts v e = true)
  ∧ (∀ good,
       good ∈ validators →
       (∀ e, e ∈ touched → accepts good e = true) →
       (∃ bad e, bad ∈ validators ∧ e ∈ touched ∧ accepts bad e = false) →
       evaluate validators touched = Accepted).
Proof.
  intros _. split; [apply evaluate_Accepted|].
  intros good Hin Hall _. apply evaluate_Accepted. by exists good.
Qed.

(** A validator that allows nothing, and one that allows the table [t1] and
    its columns. *)
Definition deny_all : Validator :=
  {| tableAllowed := λ _, false;
     conditionColumnAllowed := λ _, false;
     joinAllowed := λ _ _, false |}.

Definition allow_t1 : Validator :=
  {| tableAllowed := λ t, String.eqb t "t1";
     conditionColumnAllowed := λ c, String.eqb (table c) "t1";
     joinAllowed := λ l r, String.eqb (table l) "t1" && String.eqb (table r) "t1" |}.

Lemma any_validator_suffices_witness :
  evaluate [deny_all; allow_t1]
    [TableRef "t1"; ConditionColumn {| table := "t1"; column := "col" |}]
  = Accepted
  ∧ evaluate [deny_all; allow_t1]
      [TableRef "t2"; ConditionColumn {| table := "t2"; column := "col" |}]
    = Rejected [IllegalTable "t2"; IllegalTable "t2"].
Proof.
  split; [|reflexivity].
  destruct (any_validator_suffices [deny_all; allow_t1]
              [TableRef "t1"; ConditionColumn {| table := "t1"; column := "col" |}])
    as [Hiff _].
  - discriminate.
  - apply Hiff. exists allow_t1. split.
    + right. left.
    + intros e He. repeat (apply elem_of_cons in He as [->|He]; [reflexivity|]).
      by apply elem_of_nil in He.
Defined.

End Orchestrator.

(** ** The schema helper of the SQLite bifrost *)

(** A shallow embedding of [get_schema] of
    [heimdallm/bifrosts/sql/sqlite/select/bifrost.py]; [conn.iterdump()] is
    the list of the statements it yields. *)

Module Schema.

(** [needle in hay] on Python strings. *)
Fixpoint contains (needle hay : string) : bool :=
  String.prefix needle hay
  || match hay with
     | EmptyString => false
     | String _ hay' => contains needle hay'
     end.

(** The one-character string ["\n"]. *)
Definition newline : string := String (Ascii.ascii_of_nat 10) EmptyString.

(** [get_schema] *)
Definition get_schema (dump : list string) : string :=
  String.concat newline (List.filter (contains "CREATE TABLE") dump).

Lemma prefix_app (p s : string) : String.prefix p (p ++ s) = true.
Proof.
  induction p as [|a p IH]; simpl; [by destruct s|].
  destruct (Ascii.ascii_dec a a); [done|congruence].
Qed.

Lemma prefix_app_r (p h s : string) :
  String.prefix p h = true → String.prefix p (h ++ s) = true.
Proof.
  revert h. induction p as [|a p IH]; intros h; simpl.
  - intros _. by destruct (h ++ s)%string.
  - destruct h as [|b h]; simpl; [done|].
    destruct (Ascii.ascii_dec a b); [apply IH|done].
Qed.

Lemma contains_app_r (n h s : string) :
  contains n h = true → contains n (h ++ s) = true.
Proof.
  induction h as [|b h IH]; simpl.
  - rewrite orb_false_r. intros Hp.
    destruct n as [|a n]; [|done]. simpl. by destruct s.
  - intros Hc. apply orb_true_iff in Hc as [Hp|Hc].
    + apply orb_true_iff. left. by apply (prefix_app_r n (String b h) s).
    + apply orb_true_iff. right. by apply IH.
Qed.

Lemma contains_app_l (n p h : string) :
  contains n h = true → contains n (p ++ h) = true.
Proof.
  intros Hc. induction p as [|b p IH]; simpl; [done|].
  apply orb_true_iff. by right.
Qed.

Lemma prefix_refl (n : string) : String.prefix n n = true.
Proof.
  induction n as [|a n IH]; simpl; [done|].
  destruct (Ascii.ascii_dec a a); [done|congruence].
Qed.

Lemma contains_prefix (n h : string) :
  String.prefix n h = true → contains n h = true.
Proof.
  intros Hp. destruct h as [|b h].
  - destruct n; [done|discriminate].
  - cbn [contains]. by rewrite Hp.
Qed.

Lemma contains_self (n : string) : contains n n = true.
Proof. apply contains_prefix, prefix_refl. Qed.

Lemma concat_cons_cons (sep x y : string) (l : list string) :
  String.concat sep (x :: y :: l) = (x ++ sep ++ String.concat sep (y :: l))%string.
Proof. done. Qed.

Lemma contains_concat (sep x : string) (l : list string) :
  In x l → contains x (String.concat sep l) = true.
Proof.
  induction l as [|y l IH]; [done|].
  intros [->|Hin].
  - destruct l as [|z l]; [apply contains_self|].
    rewrite concat_cons_cons. apply contains_app_r, contains_self.
  - destruct l as [|z l]; [done|].
    rewrite concat_cons_cons. apply contains_app_l, contains_app_l. by apply IH.
Qed.

Lemma append_assoc (a b c : string) :
  ((a ++ b) ++ c)%string = (a ++ b ++ c)%string.
Proof.
  induction a as [|x a IH]; [done|].
  change (String x ((a ++ b) ++ c) = String x (a ++ b ++ c))%string.
  by rewrite IH.
Qed.

Lemma concat_app (sep : string) (l1 l2 : list string) :
  l1 ≠ [] → l2 ≠ [] →
  String.concat sep (l1 ++ l2)
  = (String.concat sep l1 ++ sep ++ String.concat sep l2)%string.
Proof.
  intros H1 H2. induction l1 as [|x l1 IH]; [done|].
  destruct l1 as [|y l1].
  - destruct l2 as [|z l2]; [done|]. done.
  - change ((x :: y :: l1) ++ l2) with (x :: y :: (l1 ++ l2)).
    rewrite !concat_cons_cons, append_assoc. f_equal.
    rewrite append_assoc. f_equal. by apply IH.
Qed.

Lemma contains_nonempty (n h : string) :
  n ≠ EmptyString → contains n h = true → h ≠ EmptyString.
Proof. intros Hn Hc ->. destruct n; [done|discriminate]. Qed.

(** [get_schema] keeps every statement of the dump that mentions
    [CREATE TABLE]: the statement is part of the schema text. *)
Theorem get_schema_keeps_create_table (dump : list string) (x : string) :
  In x dump →
  contains "CREATE TABLE" x = true →
  contains x (get_schema dump) = true.
Proof.
  intros Hin Hx. unfold get_schema. apply contains_concat.
  apply filter_In. by split.
Qed.

Lemma get_schema_keeps_create_table_witness :
  contains "CREATE TABLE t1 (col);"
    (get_schema [ "BEGIN TRANSACTION;"; "CREATE TABLE t1 (col);";
                  "INSERT INTO t1 VALUES(42);"; "CREATE TABLE t2 (col);";
                  "COMMIT;" ]) = true.
Proof.
  apply get_schema_keeps_create_table.
  - right. left. reflexivity.
  - reflexivity.
Defined.

(** The schema is the empty string exactly when no statement of the dump
    mentions [CREATE TABLE]; in particular for an empty dump. *)
Theorem get_schema_empty_iff (dump : list string) :
  get_schema dump = EmptyString
  ↔ Forall (λ x, contains "CREATE TABLE" x = false) dump.
Proof.
  split.
  - intros Hempty. apply Forall_forall. intros x Hin.
    destruct (contains "CREATE TABLE" x) eqn:Hx; [|done]. exfalso.
    apply list_elem_of_In in Hin.
    pose proof (get_schema_keeps_create_table dump x Hin Hx) as Hc.
    rewrite Hempty in Hc.
    apply (contains_nonempty x EmptyString); [|done|done].
    intros ->. discriminate.
  - intros Hall. unfold get_schema.
    replace (List.filter (contains "CREATE TABLE") dump) with (@nil string); [done|].
    induction Hall as [|x l Hx _ IH]; [done|]. simpl. by rewrite Hx.
Qed.

(** The schema of two dumps read one after the other: the two schemas
    joined by a newline, or the schema of the one when the other has no
    [CREATE TABLE] statement. *)
Theorem get_schema_app (dump1 dump2 : list string) :
  get_schema (dump1 ++ dump2)
  = if negb (existsb (contains "CREATE TABLE") dump1) then get_schema dump2
    else if negb (existsb (contains "CREATE TABLE") dump2) then get_schema dump1
    else (get_schema dump1 ++ newline ++ get_schema dump2)%string.
Proof.
  assert (∀ l, existsb (contains "CREATE TABLE") l = false
               → List.filter (contains "CREATE TABLE") l = []) as Hnone.
  { induction l as [|x l IH]; [done|]. simpl. intros H.
    apply orb_false_iff in H as [Hx Hl]. rewrite Hx. by apply IH. }
  assert (∀ l, existsb (contains "CREATE TABLE") l = true
               → List.filter (contains "CREATE TABLE") l ≠ []) as Hsome.
  { induction l as [|x l IH]; [done|]. simpl. intros H.
    destruct (contains "CREATE TABLE" x); [done|]. by apply IH. }
  unfold get_schema. rewrite List.filter_app.
  destruct (existsb (contains "CREATE TABLE") dump1) eqn:H1; simpl.
  - destruct (existsb (contains "CREATE TABLE") dump2) eqn:H2; simpl.
    + apply concat_app; by apply Hsome.
    + rewrite (Hnone dump2 H2). by rewrite app_nil_r.
  - by rewrite (Hnone dump1 H1).
Qed.

End Schema.

(** ** Further properties of the collector *)

Lemma world_eq (w w' : World) :
  heap w = heap w' →
  registry w = registry w' →
  _reserved_keywords (self w) = _reserved_keywords (self w') →
  self_selected_table (self w) = self_selected_table (self w') →
  w = w'.
Proof.
  destruct w as [h [r k t]], w' as [h' [r' k' t']]. unfold registry. simpl.
  by intros -> -> -> ->.
Qed.

Lemma selected_after_aliased_table u alias table_name w :
  self_selected_table (self (after_aliased_table u alias table_name w))
  = self_selected_table (self w).
Proof. unfold after_aliased_table. simpl. apply ensure_scope_selected. Qed.

Lemma registry_after_aliased_table_eq u alias table_name w :
  registry (after_aliased_table u alias table_name w)
  = alter (set_aliased_table alias table_name) u (registry (ensure_scope u w)).
Proof. done. Qed.

Lemma scope_after_aliased_table_own u alias table_name w :
  scope (after_aliased_table u alias table_name w) u
  = set_aliased_table alias table_name (scope w u).
Proof. by rewrite scope_after_aliased_table, (decide_True (P := u = u)). Qed.

Lemma after_aliased_table_idem u alias table_name w :
  after_aliased_table u alias table_name (after_aliased_table u alias table_name w)
  = after_aliased_table u alias table_name w.
Proof.
  set (w1 := after_aliased_table u alias table_name w).
  apply world_eq.
  - apply list_eq. intros x. unfold w1 at 2.
    rewrite !heap_after_aliased_table.
    unfold w1. rewrite scope_after_aliased_table_own.
    cbn [set_aliased_table _aliased_columns].
    rewrite heap_after_aliased_table.
    case_decide; [|done].
    destruct (heap w !! x); simpl; [|done]. by rewrite backfill_column_idem.
  - rewrite registry_after_aliased_table_eq.
    destruct (registry_after_aliased_table u alias table_name w) as [q Hq].
    fold w1 in Hq. rewrite (ensure_scope_present _ _ _ Hq).
    unfold w1. rewrite registry_after_aliased_table_eq.
    apply map_eq. intros v. rewrite !lookup_alter.
    destruct (decide (u = v)) as [<-|Hne]; [|done].
    rewrite (decide_True (P := u = u)) by done.
    destruct (registry (ensure_scope u w) !! u) as [q0|]; simpl; [|done].
    f_equal. unfold set_aliased_table. simpl. by rewrite insert_insert_eq.
  - by rewrite !keywords_after_aliased_table.
  - by rewrite !selected_after_aliased_table.
Qed.

Section Further.

Context (get_identifier : Tree → gset string → result string).
Context (is_count_function : Tree → bool).
Context (fq_hash : FqColumn → Z).

(** Error behaviour of [aliased_table], as a table of its outcomes. *)
Lemma aliased_table_outcomes node w :
  (∃ e, aliased_table get_identifier node w = (w, Raise e))
  ∨ (∃ u table_node as_node alias_node table_name alias,
       children node = [table_node; as_node; alias_node]
       ∧ get_identifier table_node (_reserved_keywords (self w)) = Ok table_name
       ∧ get_identifier alias_node (_reserved_keywords (self w)) = Ok alias
       ∧ nearest_boundary (meta_parent node) u
       ∧ aliased_table get_identifier node w
         = (after_aliased_table u alias table_name w, Ok tt)).
Proof.
  destruct (children node) as [|tn [|asn [|an [|x cs]]]] eqn:Hcs;
    try (left; exists ValueError; unfold aliased_table; by rewrite Hcs).
  destruct (get_identifier tn (_reserved_keywords (self w))) as [t|e] eqn:Ht.
  2: { left. exists e. unfold aliased_table. rewrite Hcs.
       run_with reflexivity. cbn beta iota.
       erewrite bind_raise; [done|]. by rewrite identifier_run, Ht. }
  destruct (get_identifier an (_reserved_keywords (self w))) as [a|e] eqn:Ha.
  2: { left. exists e. unfold aliased_table. rewrite Hcs.
       run_with reflexivity. cbn beta iota.
       run_with (by apply identifier_ok).
       erewrite bind_raise; [done|]. by rewrite identifier_run, Ha. }
  destruct (boundary_above_dec (meta_parent node)) as [Hb|Hb].
  - destruct (boundary_above_nearest _ Hb) as [u Hu].
    right. exists u, tn, asn, an, t, a. repeat split; try done.
    by apply aliased_table_run with tn asn an.
  - left. eexists. unfold aliased_table. rewrite Hcs.
    run_with reflexivity. cbn beta iota.
    run_with (by apply identifier_ok).
    run_with (by apply identifier_ok).
    erewrite bind_raise; [done|]. by apply find_wrapping_query_none.
Qed.

(** Visiting the same table-alias node a second time changes nothing:
    [aliased_table] twice on a node gives the outcome and the world of
    [aliased_table] once. *)
Theorem aliased_table_idempotent node w :
  aliased_table get_identifier node (aliased_table get_identifier node w).1
  = aliased_table get_identifier node w.
Proof.
  destruct (aliased_table_outcomes node w)
    as [[e He]|(u & tn & asn & an & t & a & Hcs & Ht & Ha & Hu & Hrun)].
  - by rewrite He.
  - rewrite Hrun. cbn [fst].
    rewrite (aliased_table_run get_identifier node _ tn asn an t a u);
      try done; try (by rewrite keywords_after_aliased_table).
    by rewrite after_aliased_table_idem.
Qed.

(** A node with no enclosing query: the three alias-recording methods
    leave the collector exactly as it was, whatever the outcome, and each
    raises the [RuntimeError] of the scope lookup once its own unpacking and
    identifier reads have succeeded. *)
Theorem no_enclosing_query_changes_nothing node w :
  ¬ boundary_above (meta_parent node) →
  (aliased_table get_identifier node w).1 = w
  ∧ (derived_table get_identifier node w).1 = w
  ∧ aliased_column get_identifier is_count_function fq_hash node w
    = (w, Raise (RuntimeError "could not find wrapping query for node"))
  ∧ (∀ table_node as_node alias_node table_name alias,
       children node = [table_node; as_node; alias_node] →
       get_identifier table_node (_reserved_keywords (self w)) = Ok table_name →
       get_identifier alias_node (_reserved_keywords (self w)) = Ok alias →
       aliased_table get_identifier node w
       = (w, Raise (RuntimeError "could not find wrapping query for node")))
  ∧ (∀ subquery as_node alias_node alias,
       children node = [subquery; as_node; alias_node] →
       get_identifier alias_node (_reserved_keywords (self w)) = Ok alias →
       derived_table get_identifier node w
       = (w, Raise (RuntimeError "could not find wrapping query for node"))).
Proof.
  intros Hb.
  assert (∀ {B} (k : UUID → M B),
            bind (_alias_scope node) k w
            = (w, Raise (RuntimeError "could not find wrapping query for node")))
    as Hscope.
  { intros B k. erewrite bind_raise; [done|]. by apply find_wrapping_query_none. }
  split; [|split; [|split; [|split]]].
  - destruct (aliased_table_outcomes node w)
      as [[e He]|(u & _ & _ & _ & _ & _ & _ & _ & _ & Hu & _)].
    + by rewrite He.
    + destruct Hb. by apply nearest_boundary_above with u.
  - unfold derived_table.
    destruct (children node) as [|sq [|asn [|an [|x cs]]]]; try done.
    run_with reflexivity. cbn beta iota.
    destruct (get_identifier an (_reserved_keywords (self w))) as [a|e] eqn:Ha.
    + run_with (by apply identifier_ok). by rewrite Hscope.
    + erewrite bind_raise; [done|]. by rewrite identifier_run, Ha.
  - unfold aliased_column. apply Hscope.
  - intros tn asn an t a Hcs Ht Ha. unfold aliased_table. rewrite Hcs.
    run_with reflexivity. cbn beta iota.
    run_with (by apply identifier_ok).
    run_with (by apply identifier_ok).
    apply Hscope.
  - intros sq asn an a Hcs Ha. unfold derived_table. rewrite Hcs.
    run_with reflexivity. cbn beta iota.
    run_with (by apply identifier_ok).
    apply Hscope.
Qed.

(** A node that does not have exactly three children: [aliased_table] and
    [derived_table] raise [ValueError] and change nothing; [aliased_column]
    raises [ValueError] too, but only after the scope lookup, so the scope of
    the enclosing query has been created when it was missing. *)
Theorem wrong_arity_raises_ValueError node w :
  (∀ a b c, children node ≠ [a; b; c]) →
  aliased_table get_identifier node w = (w, Raise ValueError)
  ∧ derived_table get_identifier node w = (w, Raise ValueError)
  ∧ (∀ u, nearest_boundary (meta_parent node) u →
       aliased_column get_identifier is_count_function fq_hash node w
       = (ensure_scope u w, Raise ValueError)).
Proof.
  intros Hcs.
  assert (∀ w', unpack3 (children node) w' = (w', Raise ValueError)) as Hun.
  { intros w'. destruct (children node) as [|a [|b [|c [|d cs]]]]; try done.
    by destruct (Hcs a b c). }
  split; [|split].
  - unfold aliased_table. by erewrite bind_raise.
  - unfold derived_table. by erewrite bind_raise.
  - intros u Hu. unfold aliased_column.
    run_with (by apply alias_scope_ok). by erewrite bind_raise.
Qed.

Lemma derived_table_run node w d i cs as_node alias_node alias u :
  children node = [Node d i cs; as_node; alias_node] →
  get_identifier alias_node (_reserved_keywords (self w)) = Ok alias →
  nearest_boundary (meta_parent node) u →
  derived_table get_identifier node w
  = (set_registry
       (alter (set_subquery_alias alias i) u (registry (ensure_scope u w)))
       (ensure_scope u w), Ok tt).
Proof.
  intros Hcs Ha Hu. unfold derived_table. rewrite Hcs.
  run_with reflexivity. cbn beta iota.
  run_with (by apply identifier_ok).
  run_with (by apply alias_scope_ok). done.
Qed.

Lemma derived_table_run_token node w v as_node alias_node alias u :
  children node = [Token v; as_node; alias_node] →
  get_identifier alias_node (_reserved_keywords (self w)) = Ok alias →
  nearest_boundary (meta_parent node) u →
  derived_table get_identifier node w = (ensure_scope u w, Raise AttributeError).
Proof.
  intros Hcs Ha Hu. unfold derived_table. rewrite Hcs.
  run_with reflexivity. cbn beta iota.
  run_with (by apply identifier_ok).
  run_with (by apply alias_scope_ok). done.
Qed.

(** The outcomes of [aliased_table] and [derived_table] that do not depend
    on the registry: a wrong number of children, an identifier that cannot
    be read. *)
Lemma aliased_table_early node w :
  (∃ e, ∀ w', _reserved_keywords (self w') = _reserved_keywords (self w) →
              aliased_table get_identifier node w' = (w', Raise e))
  ∨ (∃ table_node as_node alias_node table_name alias,
       children node = [table_node; as_node; alias_node]
       ∧ get_identifier table_node (_reserved_keywords (self w)) = Ok table_name
       ∧ get_identifier alias_node (_reserved_keywords (self w)) = Ok alias).
Proof.
  destruct (children node) as [|tn [|asn [|an [|x cs]]]] eqn:Hcs;
    try (left; exists ValueError; intros w' _; unfold aliased_table;
         by rewrite Hcs).
  destruct (get_identifier tn (_reserved_keywords (self w))) as [t|e] eqn:Ht.
  2: { left. exists e. intros w' Hkw. unfold aliased_table. rewrite Hcs.
       run_with reflexivity. cbn beta iota.
       erewrite bind_raise; [done|]. by rewrite identifier_run, Hkw, Ht. }
  destruct (get_identifier an (_reserved_keywords (self w))) as [a|e] eqn:Ha.
  2: { left. exists e. intros w' Hkw. unfold aliased_table. rewrite Hcs.
       run_with reflexivity. cbn beta iota.
       run_with (apply identifier_ok; by rewrite Hkw).
       erewrite bind_raise; [done|]. by rewrite identifier_run, Hkw, Ha. }
  right. by exists tn, asn, an, t, a.
Qed.

Lemma derived_table_early node w :
  (∃ e, ∀ w', _reserved_keywords (self w') = _reserved_keywords (self w) →
              derived_table get_identifier node w' = (w', Raise e))
  ∨ (∃ subquery as_node alias_node alias,
       children node = [subquery; as_node; alias_node]
       ∧ get_identifier alias_node (_reserved_keywords (self w)) = Ok alias).
Proof.
  destruct (children node) as [|sq [|asn [|an [|x cs]]]] eqn:Hcs;
    try (left; exists ValueError; intros w' _; unfold derived_table;
         by rewrite Hcs).
  destruct (get_identifier an (_reserved_keywords (self w))) as [a|e] eqn:Ha.
  2: { left. exists e. intros w' Hkw. unfold derived_table. rewrite Hcs.
       run_with reflexivity. cbn beta iota.
       erewrite bind_raise; [done|]. by rewrite identifier_run, Hkw, Ha. }
  right. by exists sq, asn, an, a.
Qed.

(** [derived_table] on [(subquery) AS <alias>] in the scope [u] returns
    normally and binds the alias to the id of the subquery node in
    [_subquery_aliases] of [u]; the other subquery aliases, the table and
    column aliases of the scope, the other scopes and the heap are unchanged.
    When the first child is a token, which has no [meta], it raises
    [AttributeError] and binds nothing. *)
Theorem derived_table_records node w subquery as_node alias_node alias u :
  children node = [subquery; as_node; alias_node] →
  get_identifier alias_node (_reserved_keywords (self w)) = Ok alias →
  nearest_boundary (meta_parent node) u →
  (∀ d i cs, subquery = Node d i cs →
     ∃ w', derived_table get_identifier node w = (w', Ok tt)
       ∧ _subquery_aliases (scope w' u) !! alias = Some i
       ∧ (∀ b, b ≠ alias →
            _subquery_aliases (scope w' u) !! b
            = _subquery_aliases (scope w u) !! b)
       ∧ _aliased_tables (scope w' u) = _aliased_tables (scope w u)
       ∧ _aliased_columns (scope w' u) = _aliased_columns (scope w u)
       ∧ (∀ v, v ≠ u → registry w' !! v = registry w !! v)
       ∧ heap w' = heap w)
  ∧ (∀ v, subquery = Token v →
       derived_table get_identifier node w
       = (ensure_scope u w, Raise AttributeError)).
Proof.
  intros Hcs Ha Hu. split.
  - intros d i cs ->. eexists. split.
    { by apply derived_table_run with d cs as_node alias_node. }
    rewrite scope_alter_ensure. simpl.
    split; [apply lookup_insert_eq|].
    split; [intros b Hb; by rewrite lookup_insert_ne|].
    split; [done|]. split; [done|]. split; [|apply ensure_scope_heap].
    intros v Hv. rewrite registry_set_registry, lookup_alter.
    rewrite decide_False by done. rewrite ensure_scope_lookup.
    by rewrite decide_False.
  - intros v ->. by apply derived_table_run_token with v as_node alias_node alias.
Qed.

(** After [aliased_table] has recorded [<table> AS <alias>] in the scope
    [u], [_resolve_table] for any node of that scope maps the alias to the
    table, maps every other name as before, and changes nothing. *)
Theorem resolve_after_aliased_table
    node node' w table_node as_node alias_node table_name alias u :
  children node = [table_node; as_node; alias_node] →
  get_identifier table_node (_reserved_keywords (self w)) = Ok table_name →
  get_identifier alias_node (_reserved_keywords (self w)) = Ok alias →
  nearest_boundary (meta_parent node) u →
  nearest_boundary (meta_parent node') u →
  ∃ w', aliased_table get_identifier node w = (w', Ok tt)
    ∧ _resolve_table node' alias w' = (w', Ok table_name)
    ∧ ∀ name, name ≠ alias →
        _resolve_table node' name w'
        = (w', Ok (match _aliased_tables (scope w u) !! name with
                   | Some t => t
                   | None => name
                   end)).
Proof.
  intros Hcs Ht Ha Hu Hu'.
  exists (after_aliased_table u alias table_name w).
  split; [by apply aliased_table_run with table_node as_node alias_node|].
  pose proof (registry_after_aliased_table u alias table_name w) as Hsome.
  split.
  - rewrite (resolve_table_run node' u alias _ Hu' Hsome).
    rewrite scope_after_aliased_table_own. simpl. by rewrite lookup_insert_eq.
  - intros name Hne. rewrite (resolve_table_run node' u name _ Hu' Hsome).
    rewrite scope_after_aliased_table_own. simpl.
    by rewrite lookup_insert_ne.
Qed.

(** Backfills compose: a column recorded under the table text [a] reads
    [t2] after [t1 AS a] and then [t2 AS t1] have been visited, the second
    backfill rewriting what the first one wrote. *)
Theorem backfills_compose
    node1 node2 w tn1 as1 an1 tn2 as2 an2 a t1 t2 u x c :
  children node1 = [tn1; as1; an1] →
  get_identifier tn1 (_reserved_keywords (self w)) = Ok t1 →
  get_identifier an1 (_reserved_keywords (self w)) = Ok a →
  nearest_boundary (meta_parent node1) u →
  children node2 = [tn2; as2; an2] →
  get_identifier tn2 (_reserved_keywords (self w)) = Ok t2 →
  get_identifier an2 (_reserved_keywords (self w)) = Ok t1 →
  nearest_boundary (meta_parent node2) u →
  recorded (scope w u) x →
  heap w !! x = Some c →
  table c = a →
  ∃ w1 w2,
    aliased_table get_identifier node1 w = (w1, Ok tt)
    ∧ aliased_table get_identifier node2 w1 = (w2, Ok tt)
    ∧ heap w1 !! x = Some {| table := t1; column := column c |}
    ∧ heap w2 !! x = Some {| table := t2; column := column c |}.
Proof.
  intros Hcs1 Ht1 Ha1 Hu1 Hcs2 Ht2 Ha2 Hu2 Hrec Hx Hc.
  exists (after_aliased_table u a t1 w),
         (after_aliased_table u t1 t2 (after_aliased_table u a t1 w)).
  split; [by apply aliased_table_run with tn1 as1 an1|].
  split.
  { apply aliased_table_run with tn2 as2 an2; try done;
      by rewrite keywords_after_aliased_table. }
  assert (heap (after_aliased_table u a t1 w) !! x
          = Some {| table := t1; column := column c |}) as H1.
  { rewrite heap_after_aliased_table, decide_True, Hx
      by (by apply recorded_addresses).
    simpl. by rewrite backfill_column_hit. }
  split; [done|].
  rewrite heap_after_aliased_table, decide_True, H1.
  - simpl. by rewrite backfill_column_hit.
  - apply recorded_addresses. rewrite scope_after_aliased_table_own.
    by apply recorded_same_columns with (scope w u).
Qed.

(** Binding an alias a second time: [_aliased_tables] then holds the second
    table, but a column that the first binding has backfilled keeps the first
    table, since its table text is no longer the alias. *)
Theorem rebinding_keeps_first_backfill
    node1 node2 w tn1 as1 an1 tn2 as2 an2 a t1 t2 u x c :
  children node1 = [tn1; as1; an1] →
  get_identifier tn1 (_reserved_keywords (self w)) = Ok t1 →
  get_identifier an1 (_reserved_keywords (self w)) = Ok a →
  nearest_boundary (meta_parent node1) u →
  children node2 = [tn2; as2; an2] →
  get_identifier tn2 (_reserved_keywords (self w)) = Ok t2 →
  get_identifier an2 (_reserved_keywords (self w)) = Ok a →
  nearest_boundary (meta_parent node2) u →
  t1 ≠ a →
  recorded (scope w u) x →
  heap w !! x = Some c →
  table c = a →
  ∃ w1 w2,
    aliased_table get_identifier node1 w = (w1, Ok tt)
    ∧ aliased_table get_identifier node2 w1 = (w2, Ok tt)
    ∧ _aliased_tables (scope w2 u) !! a = Some t2
    ∧ heap w2 !! x = Some {| table := t1; column := column c |}.
Proof.
  intros Hcs1 Ht1 Ha1 Hu1 Hcs2 Ht2 Ha2 Hu2 Hne Hrec Hx Hc.
  exists (after_aliased_table u a t1 w),
         (after_aliased_table u a t2 (after_aliased_table u a t1 w)).
  split; [by apply aliased_table_run with tn1 as1 an1|].
  split.
  { apply aliased_table_run with tn2 as2 an2; try done;
      by rewrite keywords_after_aliased_table. }
  split.
  { rewrite scope_after_aliased_table_own. simpl. apply lookup_insert_eq. }
  assert (heap (after_aliased_table u a t1 w) !! x
          = Some {| table := t1; column := column c |}) as H1.
  { rewrite heap_after_aliased_table, decide_True, Hx
      by (by apply recorded_addresses).
    simpl. by rewrite backfill_column_hit. }
  rewrite heap_after_aliased_table, decide_True, H1.
  - simpl. by rewrite backfill_column_miss.
  - apply recorded_addresses. rewrite scope_after_aliased_table_own.
    by apply recorded_same_columns with (scope w u).
Qed.

(** [only_alias u alias w w']: in the scope [u] nothing but the entry of
    [alias] in [_aliased_columns] differs between [w] and [w'], and the
    objects of [w] are still there, unchanged. *)
Definition only_alias (u : UUID) (alias : string) (w w' : World) : Prop :=
  _aliased_tables (scope w' u) = _aliased_tables (scope w u)
  ∧ _subquery_aliases (scope w' u) = _subquery_aliases (scope w u)
  ∧ (∀ k, k ≠ alias →
       _aliased_columns (scope w' u) !! k = _aliased_columns (scope w u) !! k)
  ∧ heap w `prefix_of` heap w'.

#[global] Instance only_alias_preorder u alias : PreOrder (only_alias u alias).
Proof.
  split.
  - intros w. by repeat split.
  - intros w1 w2 w3 (Ht & Hs & Hk & Hh) (Ht' & Hs' & Hk' & Hh').
    repeat split.
    + by rewrite Ht'.
    + by rewrite Hs'.
    + intros k Hne. by rewrite (Hk' k Hne), (Hk k Hne).
    + by transitivity (heap w2).
Qed.

Lemma only_alias_ensure u alias v w : only_alias u alias w (ensure_scope v w).
Proof.
  unfold only_alias. rewrite ensure_scope_scope, ensure_scope_heap.
  by repeat split.
Qed.

Lemma only_alias_update u alias f w :
  (∀ q, _aliased_tables (f q) = _aliased_tables q
        ∧ _subquery_aliases (f q) = _subquery_aliases q
        ∧ ∀ k, k ≠ alias → _aliased_columns (f q) !! k = _aliased_columns q !! k) →
  only_alias u alias w (set_registry (alter f u (registry w)) w).
Proof.
  intros Hf. unfold only_alias.
  rewrite scope_alter, (decide_True (P := u = u)) by done.
  unfold scope. destruct (registry w !! u) as [q|]; simpl.
  - destruct (Hf q) as (Ht & Hs & Hk). by repeat split.
  - by repeat split.
Qed.

Lemma only_alias_set_aliased_columns u alias v w :
  only_alias u alias w
    (set_registry (alter (set_aliased_columns alias v) u (registry w)) w).
Proof.
  apply only_alias_update. intros q. repeat split.
  intros k Hk. simpl. by rewrite lookup_insert_ne.
Qed.

Lemma record_fq_column_only_alias node u alias n w :
  keeps (only_alias u alias)
    (record_fq_column get_identifier fq_hash node u alias n) w.
Proof.
  unfold record_fq_column.
  apply keeps_unpack2; [apply _|]. intros tn cn _.
  apply keeps_identifier; [apply _|]. intros t.
  apply keeps_identifier; [apply _|]. intros c.
  unfold _resolve_table.
  apply keeps_bind; [apply _| |].
  - apply keeps_alias_scope; [apply _|]. intros u' Hu'.
    split; [apply only_alias_ensure|]. apply keeps_get_world.
    apply keeps_ret. apply _.
  - intros t' _. apply keeps_bind; [apply _| |].
    + unfold dd_getitem. apply keeps_get_world.
      destruct (_aliased_columns _ !! alias).
      * apply keeps_ret. apply _.
      * apply keeps_bind; [apply _| |].
        -- apply only_alias_set_aliased_columns.
        -- intros _ _. apply keeps_ret. apply _.
    + intros v _. unfold add_column. destruct v; [apply keeps_raise; apply _|].
      apply keeps_get_world. apply keeps_bind; [apply _| |].
      * unfold keeps, put_heap. simpl. repeat split. by apply prefix_app_r.
      * intros _ _. apply only_alias_update. intros q.
        destruct (_aliased_columns q !! alias) as [[|s0]|]; repeat split.
        intros k Hk. simpl. by rewrite lookup_insert_ne.
Qed.

(** Whatever its outcome (also when an identifier of the expression cannot
    be read, or when the alias is already [None] and the call raises),
    [aliased_column] for [<expr> AS <alias>] leaves the table aliases and the
    subquery aliases of the scope, the entries of all other column aliases,
    all other scopes and every object already in the heap as they were. *)
Theorem aliased_column_touches_only_its_alias
    node w value as_node alias_node alias u :
  children node = [value; as_node; alias_node] →
  get_identifier alias_node (_reserved_keywords (self w)) = Ok alias →
  nearest_boundary (meta_parent node) u →
  _aliased_tables
    (scope (aliased_column get_identifier is_count_function fq_hash node w).1 u)
  = _aliased_tables (scope w u)
  ∧ _subquery_aliases
      (scope (aliased_column get_identifier is_count_function fq_hash node w).1 u)
    = _subquery_aliases (scope w u)
  ∧ (∀ k, k ≠ alias →
       _aliased_columns
         (scope (aliased_column get_identifier is_count_function fq_hash node w).1 u)
         !! k
       = _aliased_columns (scope w u) !! k)
  ∧ heap w
    `prefix_of` heap (aliased_column get_identifier is_count_function fq_hash node w).1
  ∧ (∀ v, v ≠ u →
       registry (aliased_column get_identifier is_count_function fq_hash node w).1 !! v
       = registry w !! v).
Proof.
  intros Hcs Ha Hu.
  assert (only_alias u alias w
            (aliased_column get_identifier is_count_function fq_hash node w).1)
    as (Ht & Hs & Hk & Hh).
  { unfold aliased_column.
    run_with (by apply alias_scope_ok).
    rewrite Hcs. run_with reflexivity. cbn beta iota.
    run_with (apply identifier_ok; by rewrite ensure_scope_keywords).
    transitivity (ensure_scope u w); [apply only_alias_ensure|].
    destruct (is_count_function value).
    - apply only_alias_set_aliased_columns.
    - apply (keeps_find_fq_columns (only_alias u alias)). intros l.
      apply (keeps_bind (only_alias u alias)).
      + apply keeps_for_each; [apply _|]. intros n w'.
        apply record_fq_column_only_alias.
      + intros _ _. destruct l.
        * apply only_alias_set_aliased_columns.
        * apply keeps_ret. apply _. }
  repeat split; try done.
  intros v Hv.
  destruct (aliased_column_outside get_identifier is_count_function fq_hash node w)
    as [Hout _].
  apply Hout. intros Hv'. apply Hv. by apply nearest_boundary_unique with (meta_parent node).
Qed.

(** [clean h s]: the set [s] holds no column twice, and the hash stored
    with each member is the hash of the column as it is now. *)
Definition clean (h : list FqColumn) (s : list SetEntry) : Prop :=
  NoDup ((λ e, h !! entry_key e) <$> s)
  ∧ ∀ e, e ∈ s → ∃ c, h !! entry_key e = Some c ∧ entry_hash e = fq_hash c.

Lemma set_contains_false h s c e :
  set_contains fq_hash h s c = false → e ∈ s →
  h !! entry_key e = Some c → entry_hash e ≠ fq_hash c.
Proof.
  intros Hc He Hval Hhash.
  assert (set_contains fq_hash h s c = true) as Ht; [|by rewrite Ht in Hc].
  apply existsb_exists. exists e. split; [by apply list_elem_of_In|].
  apply andb_true_iff. split; [by apply Z.eqb_eq|by apply bool_decide_eq_true].
Qed.

Lemma clean_set_add h s c :
  clean h s → clean (h ++ [c]) (set_add fq_hash h s (length h) c).
Proof.
  intros [Hnd Hh].
  assert (∀ e, e ∈ s → (h ++ [c]) !! entry_key e = h !! entry_key e) as Hsame.
  { intros e He. destruct (Hh e He) as (c' & Hc' & _).
    rewrite Hc'. by apply lookup_app_l_Some. }
  assert ((λ e, (h ++ [c]) !! entry_key e) <$> s = (λ e, h !! entry_key e) <$> s)
    as Hvalues.
  { apply list_fmap_ext. intros i e He. apply Hsame.
    by apply list_elem_of_lookup_2 with i. }
  unfold set_add. destruct (set_contains fq_hash h s c) eqn:Hc.
  - split; [by rewrite Hvalues|].
    intros e He. rewrite (Hsame e He). by apply Hh.
  - split.
    + rewrite fmap_app, Hvalues. apply NoDup_app. split; [done|]. split.
      * intros v Hv Hv'. apply list_elem_of_fmap in Hv as (e & -> & He).
        simpl in Hv'. apply list_elem_of_singleton in Hv'.
        rewrite list_lookup_middle in Hv' by done.
        destruct (Hh e He) as (c' & Hc' & Hhash).
        rewrite Hc' in Hv'. injection Hv' as ->.
        by apply (set_contains_false h s c e).
      * simpl. apply NoDup_singleton.
    + intros e He. apply elem_of_app in He as [He|He].
      * rewrite (Hsame e He). by apply Hh.
      * apply list_elem_of_singleton in He as ->. simpl.
        exists c. by rewrite list_lookup_middle.
Qed.

Lemma clean_after_records u alias refs w :
  clean (heap w) (members (_aliased_columns (scope w u) !! alias)) →
  clean (heap (after_records fq_hash u alias w refs))
    (members (_aliased_columns (scope (after_records fq_hash u alias w refs) u)
              !! alias)).
Proof.
  unfold after_records. revert w.
  induction refs as [|r refs IH]; intros w Hclean; [done|].
  cbn [foldl]. apply IH.
  rewrite after_record_scope, after_record_heap. simpl.
  rewrite lookup_insert_eq. simpl. by apply clean_set_add.
Qed.

(** When the set of a column alias is clean (as is the set of an alias that
    is not bound yet), it is clean again after [aliased_column] has added the
    references of the expression: a column referred to several times, or
    already in the set, is held once. *)
Theorem aliased_column_keeps_set_clean
    node w value as_node alias_node alias u refs :
  children node = [value; as_node; alias_node] →
  get_identifier alias_node (_reserved_keywords (self w)) = Ok alias →
  nearest_boundary (meta_parent node) u →
  is_count_function value = false →
  refs ≠ [] →
  Forall2 (fq_reference get_identifier (_reserved_keywords (self w)))
    (find_data "fq_column" value) refs →
  _aliased_columns (scope w u) !! alias ≠ Some PyNone →
  clean (heap w) (members (_aliased_columns (scope w u) !! alias)) →
  ∃ w' s',
    aliased_column get_identifier is_count_function fq_hash node w = (w', Ok tt)
    ∧ _aliased_columns (scope w' u) !! alias = Some (PySet s')
    ∧ NoDup ((λ e, heap w' !! entry_key e) <$> s')
    ∧ ∀ e, e ∈ s' →
        ∃ c, heap w' !! entry_key e = Some c ∧ entry_hash e = fq_hash c.
Proof.
  intros Hcs Ha Hu Hcount Hne Hrefs Hnone Hclean.
  pose proof (after_records_spec fq_hash u alias refs (ensure_scope u w)) as Hspec.
  cbn zeta in Hspec.
  destruct Hspec as (_ & _ & _ & _ & _ & _ & Hset & _).
  pose proof (clean_after_records u alias refs (ensure_scope u w)) as Hc.
  rewrite ensure_scope_scope, ensure_scope_heap in Hc.
  destruct (Hc Hclean) as [Hnd Hh].
  exists (after_records fq_hash u alias (ensure_scope u w) refs).
  eexists. split; [|split; [by apply Hset|]].
  - by apply aliased_column_run_set with value as_node alias_node.
  - by split.
Qed.

Lemma ensure_scope_idem u w :
  ensure_scope u (ensure_scope u w) = ensure_scope u w.
Proof.
  destruct (ensure_scope_is_Some u w) as [q Hq].
  by apply ensure_scope_present with q.
Qed.

Lemma full_query_world node w : (full_query node w).1 = ensure_scope (meta_id node) w.
Proof. unfold full_query, bind. by rewrite setdefault_scope_ensure. Qed.

Lemma ensure_scope_grown u w w' :
  grows (ensure_scope u w) w' → ensure_scope u w' = w'.
Proof.
  intros [Hg _]. destruct (ensure_scope_is_Some u w) as [q Hq].
  destruct (Hg u q Hq) as (q' & Hq' & _). by apply ensure_scope_present with q'.
Qed.

(** Visiting a query node before or after an alias-recording node of its own
    scope makes no difference: each of [aliased_table], [derived_table] and
    [aliased_column] has the same outcome after [full_query] as before it,
    and the worlds reached in the two orders are the same. *)
Theorem full_query_commutes query node w :
  nearest_boundary (meta_parent node) (meta_id query) →
  aliased_table get_identifier node (full_query query w).1
  = ((full_query query (aliased_table get_identifier node w).1).1,
     (aliased_table get_identifier node w).2)
  ∧ derived_table get_identifier node (full_query query w).1
    = ((full_query query (derived_table get_identifier node w).1).1,
       (derived_table get_identifier node w).2)
  ∧ aliased_column get_identifier is_count_function fq_hash node (full_query query w).1
    = ((full_query query
          (aliased_column get_identifier is_count_function fq_hash node w).1).1,
       (aliased_column get_identifier is_count_function fq_hash node w).2).
Proof.
  intros Hu. rewrite !full_query_world. set (u := meta_id query) in *.
  split; [|split].
  - destruct (aliased_table_early node w)
      as [[e He]|(tn & asn & an & t & a & Hcs & Ht & Ha)].
    + rewrite (He w eq_refl), (He (ensure_scope u w) (ensure_scope_keywords u w)).
      done.
    + rewrite (aliased_table_run get_identifier node w tn asn an t a u)
        by done.
      rewrite (aliased_table_run get_identifier node (ensure_scope u w)
                 tn asn an t a u)
        by (try done; by rewrite ensure_scope_keywords).
      cbn [fst snd]. f_equal.
      unfold after_aliased_table at 1. rewrite ensure_scope_idem.
      fold (after_aliased_table u a t w).
      destruct (registry_after_aliased_table u a t w) as [q Hq].
      symmetry. by apply ensure_scope_present with q.
  - destruct (derived_table_early node w)
      as [[e He]|(sq & asn & an & a & Hcs & Ha)].
    + rewrite (He w eq_refl), (He (ensure_scope u w) (ensure_scope_keywords u w)).
      done.
    + destruct sq as [v|d i cs].
      * rewrite (derived_table_run_token node w v asn an a u) by done.
        rewrite (derived_table_run_token node (ensure_scope u w) v asn an a u)
          by (try done; by rewrite ensure_scope_keywords).
        done.
      * rewrite (derived_table_run node w d i cs asn an a u) by done.
        rewrite (derived_table_run node (ensure_scope u w) d i cs asn an a u)
          by (try done; by rewrite ensure_scope_keywords).
        cbn [fst snd]. rewrite ensure_scope_idem. f_equal.
        symmetry. apply ensure_scope_grown with w.
        apply grows_update. intros q _. apply q_grows_set_subquery_alias.
  - assert (aliased_column get_identifier is_count_function fq_hash node
              (ensure_scope u w)
            = aliased_column get_identifier is_count_function fq_hash node w)
      as Heq.
    { unfold aliased_column.
      run_with (by apply alias_scope_ok).
      symmetry. run_with (by apply alias_scope_ok).
      by rewrite ensure_scope_idem. }
    rewrite Heq.
    pose proof (aliased_column_grows get_identifier is_count_function fq_hash
                  node (ensure_scope u w)) as Hg.
    unfold keeps in Hg. rewrite Heq in Hg.
    rewrite (ensure_scope_grown u w _ Hg).
    by destruct (aliased_column get_identifier is_count_function fq_hash node w).
Qed.

(** In every world a traversal reaches from a new collector, each reference
    held by a set of [_aliased_columns] points to an object of the heap, and
    no object is held by the sets of two different scopes. *)
Theorem traversal_keeps_references_valid reserved_keywords nodes :
  (∀ u a,
     recorded
       (scope (visit_all get_identifier is_count_function fq_hash nodes
                 (new_World reserved_keywords)).1 u) a →
     (a < length (heap (visit_all get_identifier is_count_function fq_hash nodes
                          (new_World reserved_keywords)).1))%nat)
  ∧ (∀ u v a,
       recorded
         (scope (visit_all get_identifier is_count_function fq_hash nodes
                   (new_World reserved_keywords)).1 u) a →
       recorded
         (scope (visit_all get_identifier is_count_function fq_hash nodes
                   (new_World reserved_keywords)).1 v) a →
       u = v).
Proof. apply well_formed_reachable. Qed.

(** A column alias whose expression is a bare token and not a count, as in
    [42 AS x] when the grammar hands the literal over as a token:
    [aliased_column] raises [AttributeError] at
    [value_node.find_data("fq_column")].  The scope of the enclosing query
    has been looked up by then (and created when it was missing), but the
    alias is bound to nothing new and no column is made. *)
Theorem token_expression_raises node w v as_node alias_node alias u :
  children node = [Token v; as_node; alias_node] →
  get_identifier alias_node (_reserved_keywords (self w)) = Ok alias →
  nearest_boundary (meta_parent node) u →
  is_count_function (Token v) = false →
  ∃ w', aliased_column get_identifier is_count_function fq_hash node w
        = (w', Raise AttributeError)
    ∧ w' = ensure_scope u w
    ∧ _aliased_columns (scope w' u) = _aliased_columns (scope w u)
    ∧ heap w' = heap w.
Proof.
  intros Hcs Ha Hu Hcount. exists (ensure_scope u w).
  split; [by apply aliased_column_run_token with v as_node alias_node alias|].
  split; [done|]. by rewrite ensure_scope_scope, ensure_scope_heap.
Qed.

End Further.

(** *** The further properties on concrete nodes *)

Lemma no_enclosing_query_changes_nothing_witness :
  aliased_column leaf_identifier tagged_count length_hash
    (column_alias_node (fq "t" "c") "x" Root) world_before_alias
  = (world_before_alias,
     Raise (RuntimeError "could not find wrapping query for node")).
Proof.
  destruct (no_enclosing_query_changes_nothing leaf_identifier tagged_count
              length_hash (column_alias_node (fq "t" "c") "x" Root)
              world_before_alias) as (_ & _ & Hcolumn & _).
  - simpl. inversion 1.
  - apply Hcolumn.
Defined.

(** A table-alias node that lost its [AS] child. *)
Definition short_alias_node : VNode :=
  {| data := "aliased_table"; meta_id := 0%N; meta_parent := in_query 1;
     children := [Token "rental"; Token "r"] |}.

Lemma wrong_arity_raises_ValueError_witness :
  aliased_table leaf_identifier short_alias_node (new_World ∅)
  = (new_World ∅, Raise ValueError)
  ∧ aliased_column leaf_identifier tagged_count length_hash short_alias_node
      (new_World ∅)
    = (ensure_scope 1%N (new_World ∅), Raise ValueError).
Proof.
  destruct (wrong_arity_raises_ValueError leaf_identifier tagged_count
              length_hash short_alias_node (new_World ∅))
    as (Htable & _ & Hcolumn).
  - intros a b c. discriminate.
  - split; [apply Htable|]. apply Hcolumn.
    apply nearest_further; [discriminate|]. apply nearest_here.
Defined.

Lemma derived_table_records_witness :
  ∃ w', derived_table leaf_identifier (subquery_alias_node 2 "sub" (in_query 1))
          (new_World ∅) = (w', Ok tt)
    ∧ _subquery_aliases (scope w' 1%N) !! "sub" = Some 2%N.
Proof.
  destruct (derived_table_records leaf_identifier
              (subquery_alias_node 2 "sub" (in_query 1)) (new_World ∅)
              (Node "full_query" 2%N []) (Token "AS") (Token "sub") "sub" 1%N)
    as [Hnode _].
  - reflexivity.
  - reflexivity.
  - apply nearest_further; [discriminate|]. apply nearest_here.
  - destruct (Hnode "full_query" 2%N [] eq_refl) as (w' & Hrun & Hsub & _).
    by exists w'.
Defined.

Lemma resolve_after_aliased_table_witness :
  ∃ w', aliased_table leaf_identifier (table_alias_node "rental" "r" (in_query 1))
          (new_World ∅) = (w', Ok tt)
    ∧ _resolve_table (column_alias_node (fq "r" "amt") "amt" (in_query 1)) "r" w'
      = (w', Ok "rental").
Proof.
  destruct (resolve_after_aliased_table leaf_identifier
              (table_alias_node "rental" "r" (in_query 1))
              (column_alias_node (fq "r" "amt") "amt" (in_query 1))
              (new_World ∅) (Token "rental") (Token "AS") (Token "r")
              "rental" "r" 1%N) as (w' & Hrun & Hres & _).
  - reflexivity.
  - reflexivity.
  - reflexivity.
  - apply nearest_further; [discriminate|]. apply nearest_here.
  - apply nearest_further; [discriminate|]. apply nearest_here.
  - by exists w'.
Defined.

Lemma backfills_compose_witness :
  ∃ w1 w2,
    aliased_table leaf_identifier (table_alias_node "rental" "r" (in_query 1))
      world_before_alias = (w1, Ok tt)
    ∧ aliased_table leaf_identifier
        (table_alias_node "archive" "rental" (in_query 1)) w1 = (w2, Ok tt)
    ∧ heap w1 !! 0%nat = Some {| table := "rental"; column := "amt" |}
    ∧ heap w2 !! 0%nat = Some {| table := "archive"; column := "amt" |}.
Proof.
  apply (backfills_compose leaf_identifier
           (table_alias_node "rental" "r" (in_query 1))
           (table_alias_node "archive" "rental" (in_query 1))
           world_before_alias
           (Token "rental") (Token "AS") (Token "r")
           (Token "archive") (Token "AS") (Token "rental")
           "r" "rental" "archive" 1%N 0%nat {| table := "r"; column := "amt" |}).
  - reflexivity.
  - reflexivity.
  - reflexivity.
  - apply nearest_further; [discriminate|]. apply nearest_here.
  - reflexivity.
  - reflexivity.
  - reflexivity.
  - apply nearest_further; [discriminate|]. apply nearest_here.
  - exists "amt", [{| entry_hash := 34; entry_key := 0 |}],
           {| entry_hash := 34; entry_key := 0 |}.
    split; [reflexivity|]. split; [left|reflexivity].
  - reflexivity.
  - reflexivity.
Defined.

Lemma aliased_column_touches_only_its_alias_witness :
  _aliased_tables
    (scope (aliased_column leaf_identifier tagged_count length_hash
              (column_alias_node (fq "t" "c") "x" (in_query 1))
              world_with_none).1 1%N)
  = _aliased_tables (scope world_with_none 1%N)
  ∧ heap world_with_none
    `prefix_of` heap (aliased_column leaf_identifier tagged_count length_hash
                        (column_alias_node (fq "t" "c") "x" (in_query 1))
                        world_with_none).1.
Proof.
  destruct (aliased_column_touches_only_its_alias leaf_identifier tagged_count
              length_hash (column_alias_node (fq "t" "c") "x" (in_query 1))
              world_with_none (fq "t" "c") (Token "AS") (Token "x") "x" 1%N)
    as (Ht & _ & _ & Hh & _).
  - reflexivity.
  - reflexivity.
  - apply nearest_further; [discriminate|]. apply nearest_here.
  - by split.
Defined.

Lemma aliased_column_keeps_set_clean_witness :
  ∃ w' s',
    aliased_column leaf_identifier tagged_count length_hash
      (column_alias_node (plus (fq "t" "c") (fq "t" "c")) "x" (in_query 1))
      (new_World ∅) = (w', Ok tt)
    ∧ _aliased_columns (scope w' 1%N) !! "x" = Some (PySet s')
    ∧ NoDup ((λ e, heap w' !! entry_key e) <$> s').
Proof.
  destruct (aliased_column_keeps_set_clean leaf_identifier tagged_count
              length_hash
              (column_alias_node (plus (fq "t" "c") (fq "t" "c")) "x" (in_query 1))
              (new_World ∅)
              (plus (fq "t" "c") (fq "t" "c")) (Token "AS") (Token "x") "x" 1%N
              [("t", "c"); ("t", "c")])
    as (w' & s' & Hrun & Hs & Hnd & _).
  - reflexivity.
  - reflexivity.
  - apply nearest_further; [discriminate|]. apply nearest_here.
  - reflexivity.
  - discriminate.
  - repeat constructor.
    + by exists "fq_column", 0%N, (Token "t"), (Token "c").
    + by exists "fq_column", 0%N, (Token "t"), (Token "c").
  - discriminate.
  - split; [apply NoDup_nil_2|]. intros e He. by apply elem_of_nil in He.
  - by exists w', s'.
Defined.

(** The same run, evaluated: [t.c + t.c AS x] allocates two columns and the
    set holds one. *)
Example repeated_reference_held_once :
  columns_view
    (aliased_column leaf_identifier tagged_count length_hash
       (column_alias_node (plus (fq "t" "c") (fq "t" "c")) "x" (in_query 1))
       (new_World ∅)).1 1%N !! "x"
  = Some (Some [Some {| table := "t"; column := "c" |}])
  ∧ length (heap (aliased_column leaf_identifier tagged_count length_hash
                    (column_alias_node (plus (fq "t" "c") (fq "t" "c")) "x"
                       (in_query 1))
                    (new_World ∅)).1) = 2%nat.
Proof. vm_compute. done. Qed.

Lemma full_query_commutes_witness :
  aliased_table leaf_identifier (table_alias_node "rental" "r" (in_query 1))
    (full_query (query_node 1 Root) (new_World ∅)).1
  = ((full_query (query_node 1 Root)
        (aliased_table leaf_identifier
           (table_alias_node "rental" "r" (in_query 1)) (new_World ∅)).1).1,
     (aliased_table leaf_identifier
        (table_alias_node "rental" "r" (in_query 1)) (new_World ∅)).2).
Proof.
  destruct (full_query_commutes leaf_identifier tagged_count length_hash
              (query_node 1 Root) (table_alias_node "rental" "r" (in_query 1))
              (new_World ∅)) as (Htable & _).
  - apply nearest_further; [discriminate|]. apply nearest_here.
  - apply Htable.
Defined.

Lemma scope_selected_table_never_set_witness :
  registry (run [ query_node 1 Root; selected_table_node "t1" (in_query 1) ]).1
    !! 1%N = Some new_QueryAliases
  ∧ _selected_table new_QueryAliases = None.
Proof.
  split; [reflexivity|].
  apply (scope_selected_table_never_set leaf_identifier tagged_count length_hash
           ∅ [ query_node 1 Root; selected_table_node "t1" (in_query 1) ] 1%N).
  reflexivity.
Defined.

Lemma rebinding_keeps_first_backfill_witness :
  ∃ w1 w2,
    aliased_table leaf_identifier (table_alias_node "rental" "r" (in_query 1))
      world_before_alias = (w1, Ok tt)
    ∧ aliased_table leaf_identifier (table_alias_node "film" "r" (in_query 1)) w1
      = (w2, Ok tt)
    ∧ _aliased_tables (scope w2 1%N) !! "r" = Some "film"
    ∧ heap w2 !! 0%nat = Some {| table := "rental"; column := "amt" |}.
Proof.
  apply (rebinding_keeps_first_backfill leaf_identifier
           (table_alias_node "rental" "r" (in_query 1))
           (table_alias_node "film" "r" (in_query 1))
           world_before_alias
           (Token "rental") (Token "AS") (Token "r")
           (Token "film") (Token "AS") (Token "r")
           "r" "rental" "film" 1%N 0%nat {| table := "r"; column := "amt" |}).
  - reflexivity.
  - reflexivity.
  - reflexivity.
  - apply nearest_further; [discriminate|]. apply nearest_here.
  - reflexivity.
  - reflexivity.
  - reflexivity.
  - apply nearest_further; [discriminate|]. apply nearest_here.
  - discriminate.
  - exists "amt", [{| entry_hash := 34; entry_key := 0 |}],
           {| entry_hash := 34; entry_key := 0 |}.
    split; [reflexivity|]. split; [left|reflexivity].
  - reflexivity.
  - reflexivity.
Defined.

Lemma token_expression_raises_witness :
  ∃ w', aliased_column leaf_identifier tagged_count length_hash
          (column_alias_node (Token "42") "x" (in_query 1)) (new_World ∅)
        = (w', Raise AttributeError)
    ∧ w' = ensure_scope 1%N (new_World ∅)
    ∧ _aliased_columns (scope w' 1%N) = _aliased_columns (scope (new_World ∅) 1%N)
    ∧ heap w' = heap (new_World ∅).
Proof.
  apply (token_expression_raises leaf_identifier tagged_count length_hash
           (column_alias_node (Token "42") "x" (in_query 1)) (new_World ∅)
           "42" (Token "AS") (Token "x") "x" 1%N).
  - reflexivity.
  - reflexivity.
  - apply nearest_further; [discriminate|]. apply nearest_here.
  - reflexivity.
Defined.
